(** * s3-index: the index store and the listing source

    A shallow embedding of

    - [src/s3_index/db/operations.py]: [setup_database],
      [get_existing_keys], [save_keys_to_db], [search_keys], over a model
      of the SQLite statements they issue (table [s3_keys], its
      [UNIQUE(bucket, key)] constraint, transactions, [LIKE]);
    - [src/s3_index/s3/operations.py]: the generator [list_s3_keys], over
      a model of the paginated listing it consumes.

    Strings are [string]s of 8-bit characters (the UTF-8 bytes of the
    Python [str]); Python integers are [Z]. *)

From Stdlib Require Import ZArith Ascii String.
From stdpp Require Import gmap strings list sorting.

Local Open Scope Z_scope.

(** ** Exceptions and results *)

Inductive exception : Type :=
  | OperationalError (msg : string)   (* sqlite3.OperationalError *)
  | IntegrityError (msg : string)     (* sqlite3.IntegrityError *)
  | OtherError (msg : string).        (* any other Exception *)

Inductive result (A : Type) : Type :=
  | Returned (a : A)
  | Raised (e : exception).
Arguments Returned {A} a.
Arguments Raised {A} e.

Definition is_returned {A} (r : result A) : bool :=
  match r with Returned _ => true | Raised _ => false end.

(** ** The descriptor dictionaries and the rows of [s3_keys] *)

(** The dictionary [{"bucket": .., "key": .., "last_modified": ..}]. *)
Record key_info : Type := KeyInfo {
  bucket : string;
  key : string;
  last_modified : string
}.

(** A row of
    [s3_keys (id INTEGER PRIMARY KEY, bucket TEXT, key TEXT,
              last_modified TEXT, UNIQUE(bucket, key))]. *)
Record row : Type := Row {
  col_id : Z;
  col_bucket : string;
  col_key : string;
  col_last_modified : string
}.

#[global] Instance key_info_eq_dec : EqDecision key_info.
Proof. solve_decision. Defined.

#[global] Instance row_eq_dec : EqDecision row.
Proof. solve_decision. Defined.

Abbreviation identity := (string * string)%type (only parsing).

Definition key_identity (k : key_info) : identity := (bucket k, key k).
Definition row_identity (r : row) : identity := (col_bucket r, col_key r).

(** The table in rowid order. *)
Abbreviation table := (list row) (only parsing).

(** The database file: [None] while the table [s3_keys] was never created. *)
Abbreviation database := (option (list row)) (only parsing).

Definition rows (db : database) : list row :=
  match db with Some t => t | None => [] end.

Definition identities (db : database) : list identity :=
  row_identity <$> rows db.

Definition row_values (r : row) : string * string * string :=
  (col_bucket r, col_key r, col_last_modified r).

(** The uniqueness invariant of the data model. *)
Definition unique_rows (db : database) : Prop := NoDup (identities db).


(** ** SQLite's [LIKE] *)

Module Like.

Definition percent : ascii := "%"%char.
Definition underscore : ascii := "_"%char.

(** The engine folds the 26 ASCII letters and nothing else. *)
Definition tolower (c : ascii) : ascii :=
  let n := nat_of_ascii c in
  if ((65 <=? n) && (n <=? 90))%nat then ascii_of_nat (n + 32) else c.

Definition eq_nocase (c d : ascii) : bool :=
  bool_decide (tolower c = tolower d).

(** [like pattern s]: [s LIKE pattern] without an [ESCAPE] clause.
    [%] matches any run of characters, [_] any one character, any other
    character itself up to ASCII case. The engine's bound on the length
    of a pattern is not part of the model. *)
Fixpoint like (pattern s : string) : bool :=
  match pattern with
  | EmptyString => match s with EmptyString => true | String _ _ => false end
  | String p pattern' =>
      if bool_decide (p = percent) then
        (fix skip (s : string) : bool :=
           like pattern' s ||
           match s with
           | EmptyString => false
           | String _ s' => skip s'
           end) s
      else
        match s with
        | EmptyString => false
        | String c s' =>
            (bool_decide (p = underscore) || eq_nocase p c) && like pattern' s'
        end
  end.


(** [s.startswith(q)] and Python's [q in s]. *)
Fixpoint starts_with (q s : string) : bool :=
  match q with
  | EmptyString => true
  | String a q' =>
      match s with
      | EmptyString => false
      | String c s' => bool_decide (a = c) && starts_with q' s'
      end
  end.

Fixpoint contains (q s : string) : bool :=
  starts_with q s ||
  match s with
  | EmptyString => false
  | String _ s' => contains q s'
  end.



Fixpoint lower (s : string) : string :=
  match s with
  | EmptyString => EmptyString
  | String c s' => String (tolower c) (lower s')
  end.

End Like.

(** ** The storage engine *)

Module Engine.

Definition create_table_if_not_exists (db : database) : database :=
  match db with
  | Some t => Some t
  | None => Some []
  end.

(** [INTEGER PRIMARY KEY]: one more than the largest id in the table
    (ids stay far below the 64-bit bound where the engine does otherwise). *)
Definition next_id (t : table) : Z :=
  1 + foldr (λ r m, Z.max (col_id r) m) 0 t.

(** [INSERT INTO s3_keys (bucket, key, last_modified) VALUES (?, ?, ?)]
    on the table contents: refused when a row has the same
    [(bucket, key)]. *)
Definition insert_row (t : table) (v : string * string * string) : result table :=
  let '(b, k, lm) := v in
  if bool_decide ((b, k) ∈ (row_identity <$> t)) then
    Raised (IntegrityError "UNIQUE constraint failed: s3_keys.bucket, s3_keys.key")
  else
    Returned (t ++ [Row (next_id t) b k lm]).

Definition insert_into (db : database) (v : string * string * string)
  : result database :=
  match db with
  | None => Raised (OperationalError "no such table: s3_keys")
  | Some t =>
      match insert_row t v with
      | Returned t' => Returned (Some t')
      | Raised e => Raised e
      end
  end.

(** [grows t t']: [t'] comes from [t] by accepted [INSERT]s. *)
Inductive grows : table → table → Prop :=
  | grows_refl t : grows t t
  | grows_insert t t' v t'' :
      grows t t' → insert_row t' v = Returned t'' → grows t t''.

(** A connection: the committed file, and the working copy of the
    transaction that is open on it (if one is). *)
Record connection : Type := Connection {
  file : database;
  txn : option database
}.

Definition connect (db : database) : connection := Connection db None.

Definition view (c : connection) : database :=
  match txn c with Some w => w | None => file c end.

Definition begin_transaction (c : connection) : connection * result unit :=
  match txn c with
  | None => (Connection (file c) (Some (file c)), Returned tt)
  | Some _ =>
      (c, Raised (OperationalError "cannot start a transaction within a transaction"))
  end.

Definition commit (c : connection) : connection := Connection (view c) None.

Definition rollback (c : connection) : connection := Connection (file c) None.

(** One [INSERT] on a connection. The Python module opens a transaction
    before an [INSERT] when none is open; a statement that fails leaves
    the transaction and its earlier statements in place. *)
Definition insert (c : connection) (v : string * string * string)
  : connection * result unit :=
  match insert_into (view c) v with
  | Returned w => (Connection (file c) (Some w), Returned tt)
  | Raised e => (Connection (file c) (Some (view c)), Raised e)
  end.

(** What the engine does beyond the statements' own semantics: an
    [executemany] or an [execute] that raises for a reason of the
    environment (as the unit test's patched [executemany] does). *)
Record faults : Type := Faults {
  executemany_fault : option nat;  (* executemany raises on reaching this row *)
  execute_fault : nat -> bool      (* the i-th single INSERT raises *)
}.

Definition no_faults : faults := Faults None (λ _, false).

Fixpoint executemany_loop (f : faults) (i : nat) (c : connection)
    (values : list (string * string * string)) (rowcount : Z)
  : connection * result Z :=
  match values with
  | [] => (c, Returned rowcount)
  | v :: values' =>
      if bool_decide (executemany_fault f = Some i) then
        (c, Raised (OtherError "executemany failed"))
      else
        match insert c v with
        | (c', Returned _) => executemany_loop f (S i) c' values' (rowcount + 1)
        | (c', Raised e) => (c', Raised e)
        end
  end.

(** [cursor.executemany(sql, values)]; the result is [cursor.rowcount]. *)
Definition executemany (f : faults) (c : connection)
    (values : list (string * string * string)) : connection * result Z :=
  executemany_loop f 0 c values 0.

(** The [i]-th [cursor.execute(INSERT ...)] of the per-row loop. *)
Definition execute_insert (f : faults) (i : nat) (c : connection)
    (v : string * string * string) : connection * result unit :=
  if execute_fault f i then (c, Raised (OtherError "execute failed"))
  else insert c v.

Fixpoint pairs_of (params : list string) : list identity :=
  match params with
  | b :: k :: params' => (b, k) :: pairs_of params'
  | _ => []
  end.

Section Limits.

(** [SQLITE_MAX_VARIABLE_NUMBER] of the engine build. *)
Variable max_variable_number : nat.

(** [SELECT bucket, key FROM s3_keys WHERE (bucket, key) IN
    ((?, ?), ..., (?, ?))] with its bound parameters. The number of
    parameters is checked when the statement is parsed, before the
    table is looked up. *)
Definition select_bucket_key_in (db : database) (params : list string)
  : result (list identity) :=
  if bool_decide (max_variable_number < length params)%nat then
    Raised (OperationalError "too many SQL variables")
  else
    match db with
    | None => Raised (OperationalError "no such table: s3_keys")
    | Some t =>
        Returned (filter (λ i, i ∈ pairs_of params) (row_identity <$> t))
    end.

End Limits.

(** [SELECT bucket, key, last_modified FROM s3_keys WHERE key LIKE ?]. *)
Definition select_where_key_like (db : database) (pattern : string)
  : result (list (string * string * string)) :=
  match db with
  | None => Raised (OperationalError "no such table: s3_keys")
  | Some t =>
      Returned ((λ r, (col_bucket r, col_key r, col_last_modified r)) <$>
                filter (λ r, Like.like pattern (col_key r) = true) t)
  end.

End Engine.

(** ** [s3_index/db/operations.py] *)

Module Db.
Import Engine.

(** [setup_database]: [CREATE TABLE IF NOT EXISTS s3_keys (...)], commit. *)
Definition setup_database (db : database) : database :=
  create_table_if_not_exists db.

(** The loop of [save_keys_to_db] that separates new from existing keys. *)
Fixpoint separate (existing_keys : gset identity) (keys : list key_info)
    (new_keys : list key_info) (skipped : Z) : list key_info * Z :=
  match keys with
  | [] => (new_keys, skipped)
  | key_info :: keys' =>
      if bool_decide ((bucket key_info, key key_info) ∈ existing_keys) then
        separate existing_keys keys' new_keys (skipped + 1)
      else
        separate existing_keys keys' (new_keys ++ [key_info]) skipped
  end.

Definition values_of (new_keys : list key_info) : list (string * string * string) :=
  (λ key_info, (bucket key_info, key key_info, last_modified key_info)) <$> new_keys.

(** The body of [try:] up to and including [conn.commit()]. *)
Definition batch_insert (f : faults) (conn : connection) (new_keys : list key_info)
  : connection * result Z :=
  match begin_transaction conn with
  | (conn, Raised e) => (conn, Raised e)
  | (conn, Returned _) =>
      match new_keys with
      | [] => (commit conn, Returned 0)
      | _ :: _ =>
          match executemany f conn (values_of new_keys) with
          | (conn, Raised e) => (conn, Raised e)
          | (conn, Returned rowcount) =>
              let count :=
                if 0 <? rowcount then rowcount else Z.of_nat (length new_keys) in
              (commit conn, Returned count)
          end
      end
  end.

(** The per-row loop of the [except] branch; [i] numbers its statements. *)
Fixpoint individual_inserts (f : faults) (i : nat) (conn : connection)
    (new_keys : list key_info) (count : Z) : connection * Z :=
  match new_keys with
  | [] => (conn, count)
  | key_info :: new_keys' =>
      match execute_insert f i conn
              (bucket key_info, key key_info, last_modified key_info) with
      | (conn, Returned _) => individual_inserts f (S i) conn new_keys' (count + 1)
      | (conn, Raised _) => individual_inserts f (S i) conn new_keys' count
      end
  end.

Section Limits.

Variable max_variable_number : nat.

(** [get_existing_keys(keys)] on the database file [db]. *)
Definition get_existing_keys (db : database) (keys : list key_info)
  : result (gset identity) :=
  match keys with
  | [] => Returned ∅
  | _ :: _ =>
      let bucket_key_pairs := (λ k, (bucket k, key k)) <$> keys in
      let flat_params := bucket_key_pairs ≫= (λ pair, [pair.1; pair.2]) in
      match select_bucket_key_in max_variable_number db flat_params with
      | Raised e => Raised e
      | Returned fetchall => Returned (list_to_set fetchall)
      end
  end.

(** [save_keys_to_db(keys)] on the database file [db]: the file
    afterwards, and [(count, skipped)] or the exception that reaches
    the caller. *)
Definition save_keys_to_db (f : faults) (db : database) (keys : list key_info)
  : database * result (Z * Z) :=
  match keys with
  | [] => (db, Returned (0, 0))
  | _ :: _ =>
      let db := setup_database db in
      let conn := connect db in
      match get_existing_keys db keys with
      | Raised e => (db, Raised e)
      | Returned existing_keys =>
          let '(new_keys, skipped) := separate existing_keys keys [] 0 in
          match batch_insert f conn new_keys with
          | (conn, Returned count) => (file conn, Returned (count, skipped))
          | (conn, Raised _) =>
              let conn := rollback conn in
              let '(conn, count) := individual_inserts f 0 conn new_keys 0 in
              let conn := commit conn in
              (file conn, Returned (count, skipped))
          end
      end
  end.

End Limits.

(** [search_keys(query)] on the database file [db]. *)
Definition search_keys (db : database) (query : string)
  : database * result (list (string * string * string)) :=
  let db := setup_database db in
  let search_term := "%" +:+ query +:+ "%" in
  (db, select_where_key_like db search_term).

(** A sequence of [save_keys_to_db] calls, each with its own faults;
    a call that raises leaves the file as it put it and the sequence
    goes on, as the caller's next invocation would. *)
Fixpoint saves (max_variable_number : nat) (db : database)
    (calls : list (faults * list key_info)) : database :=
  match calls with
  | [] => db
  | (f, keys) :: calls' =>
      saves max_variable_number
            (save_keys_to_db max_variable_number f db keys).1 calls'
  end.

End Db.

(** ** [s3_index/s3/operations.py] *)

Module S3.

(** An entry of [page["Contents"]]; [LastModified] is the text that
    [obj["LastModified"].isoformat()] gives. *)
Record s3_object : Type := S3Object {
  Key : string;
  LastModified : string
}.

(** A page of [list_objects_v2]: its ["Contents"], when it has the key. *)
Definition page : Type := option (list s3_object).

(** What iterating [paginator.paginate(Bucket=...)] delivers: pages,
    until the listing is exhausted or a request raises. *)
Inductive pagination : Type :=
  | Exhausted
  | NextPage (p : page) (rest : pagination)
  | Fails (e : exception).

Record s3_client : Type := S3Client {
  list_buckets : result (list string);   (* the names in ["Buckets"] *)
  paginate : string -> pagination
}.

(** [for obj in page["Contents"]]: the batches yielded, and the buffer
    left. *)
Fixpoint contents_loop (bucket_name : string) (batch_size : Z)
    (contents : list s3_object) (batch : list key_info)
  : list (list key_info) * list key_info :=
  match contents with
  | [] => ([], batch)
  | obj :: contents' =>
      let batch := batch ++ [KeyInfo bucket_name (Key obj) (LastModified obj)] in
      if batch_size <=? Z.of_nat (length batch) then
        let '(yielded, batch') := contents_loop bucket_name batch_size contents' [] in
        (batch :: yielded, batch')
      else
        contents_loop bucket_name batch_size contents' batch
  end.

(** [if batch: yield batch]. *)
Definition yield_if_any (batch : list key_info) : list (list key_info) :=
  match batch with
  | [] => []
  | _ :: _ => [batch]
  end.

(** [for page in paginator.paginate(...)] inside [try], with the
    statement after the loop and the [except] handler. *)
Fixpoint pages_loop (bucket_name : string) (batch_size : Z)
    (pages : pagination) (batch : list key_info) : list (list key_info) :=
  match pages with
  | Exhausted => yield_if_any batch
  | Fails e => yield_if_any batch
  | NextPage None rest => pages_loop bucket_name batch_size rest batch
  | NextPage (Some contents) rest =>
      let '(yielded, batch) := contents_loop bucket_name batch_size contents batch in
      yielded ++ pages_loop bucket_name batch_size rest batch
  end.

(** The body of [for bucket in buckets]. *)
Definition list_bucket (client : s3_client) (batch_size : Z) (bucket_name : string)
  : list (list key_info) :=
  pages_loop bucket_name batch_size (paginate client bucket_name) [].

(** [[{"Name": bucket_name}] if bucket_name else list_buckets()["Buckets"]];
    the empty string is falsy. *)
Definition buckets_of (client : s3_client) (bucket_name : option string)
  : result (list string) :=
  match bucket_name with
  | Some name => if bool_decide (name = "") then list_buckets client else Returned [name]
  | None => list_buckets client
  end.

(** [list(list_s3_keys(bucket_name, batch_size))]: the batches yielded in
    order, and how the generator ends. *)
Definition list_s3_keys (client : s3_client) (bucket_name : option string)
    (batch_size : Z) : list (list key_info) * result unit :=
  match buckets_of client bucket_name with
  | Raised e => ([], Raised e)
  | Returned buckets => (buckets ≫= list_bucket client batch_size, Returned tt)
  end.

(** The objects received from a listing, page after page. *)
Fixpoint received (pages : pagination) : list s3_object :=
  match pages with
  | Exhausted => []
  | Fails _ => []
  | NextPage None rest => received rest
  | NextPage (Some contents) rest => contents ++ received rest
  end.


Definition descriptor (bucket_name : string) (obj : s3_object) : key_info :=
  KeyInfo bucket_name (Key obj) (LastModified obj).

(** A batch of exactly [batch_size] descriptors. *)
Definition full (batch_size : Z) (batch : list key_info) : Prop :=
  Z.of_nat (length batch) = batch_size.

End S3.

(** ** [s3_index/cli/app.py] *)

Module Cli.
Import Engine.

(** The loop of [save] over the batches that [list_s3_keys] yields;
    [faults_of n] is what the environment does during the [n]-th call of
    [save_keys_to_db] (numbered as [batch_count] is). An exception of
    [save_keys_to_db] ends the command. *)
Fixpoint save_loop (max_variable_number : nat) (faults_of : Z → faults)
    (db : database) (batches : list (list key_info)) (total_count batch_count : Z)
  : database * result (Z * Z) :=
  match batches with
  | [] => (db, Returned (total_count, batch_count))
  | batch :: batches' =>
      let batch_count := batch_count + 1 in
      match Db.save_keys_to_db max_variable_number (faults_of batch_count) db batch with
      | (db, Raised e) => (db, Raised e)
      | (db, Returned (saved_count, skipped_count)) =>
          let total_count := total_count + saved_count in
          save_loop max_variable_number faults_of db batches' total_count batch_count
      end
  end.

(** The command [save [bucket] [--batch-size N]]: the file afterwards and
    the [(total_count, batch_count)] of its last message, or the
    exception that ends it. *)
Definition save (max_variable_number : nat) (client : S3.s3_client)
    (faults_of : Z → faults) (db : database)
    (bucket : option string) (batch_size : Z) : database * result (Z * Z) :=
  let db := Db.setup_database db in
  let '(batches, outcome) := S3.list_s3_keys client bucket batch_size in
  match save_loop max_variable_number faults_of db batches 0 0 with
  | (db, Raised e) => (db, Raised e)
  | (db, Returned counts) =>
      match outcome with
      | Returned _ => (db, Returned counts)
      | Raised e => (db, Raised e)
      end
  end.

(** A batch whose existence query the engine accepts. *)
Definition within_ceiling (max_variable_number : nat) (batch : list key_info) : Prop :=
  (2 * length batch ≤ max_variable_number)%nat.



End Cli.

(** The ids of the table grow with the rows. *)
Definition ids_increasing (db : database) : Prop :=
  StronglySorted Z.lt (col_id <$> rows db).

(** * Sample data *)

Module Examples.
Import Engine.

Definition key_A : key_info := KeyInfo "b" "A" "t0".
Definition key_B : key_info := KeyInfo "b" "B" "t0".
Definition key_C : key_info := KeyInfo "b" "C" "t1".
Definition key_D : key_info := KeyInfo "b" "D" "t1".
Definition key_E : key_info := KeyInfo "b" "E" "t1".

(** [A] and [C] listed again, with another [last_modified]. *)
Definition key_A_again : key_info := KeyInfo "b" "A" "t9".
Definition key_C_again : key_info := KeyInfo "b" "C" "t9".

Definition row_A : row := Row 1 "b" "A" "t0".
Definition row_B : row := Row 2 "b" "B" "t0".

(** The store that holds [A] and [B]. *)
Definition store_AB : database := Some [row_A; row_B].

(** [executemany] raises at once (the unit test's patch) and the second
    single [INSERT] raises too. *)
Definition patched : faults := Faults (Some 0%nat) (λ i, bool_decide (i = 1%nat)).

(** Two buckets: [photos] lists five objects over three pages, [logs]
    delivers three objects and then fails. *)
Definition photos : S3.pagination :=
  S3.NextPage (Some [S3.S3Object "p1" "t1"; S3.S3Object "p2" "t2"; S3.S3Object "p3" "t3"])
    (S3.NextPage None
       (S3.NextPage (Some [S3.S3Object "p4" "t4"; S3.S3Object "p5" "t5"]) S3.Exhausted)).

Definition logs : S3.pagination :=
  S3.NextPage (Some [S3.S3Object "l1" "t1"; S3.S3Object "l2" "t2"; S3.S3Object "l3" "t3"])
    (S3.Fails (OtherError "AccessDenied")).

Definition client : S3.s3_client :=
  S3.S3Client (Returned ["logs"; "photos"])
    (λ name, if bool_decide (name = "logs") then logs
             else if bool_decide (name = "photos") then photos
             else S3.Fails (OtherError "NoSuchBucket")).

End Examples.

(** * List lemmas *)

(** Settles a decidable proposition on concrete data by evaluating its
    decision procedure. *)
Ltac decide_by_evaluation :=
  apply (bool_decide_unpack _); vm_compute; exact I.

Module ListFacts.

Section Filter.
Context {A : Type} (P Q : A → Prop) `{!∀ x, Decision (P x), !∀ x, Decision (Q x)}.

Lemma filter_none (l : list A) : (∀ x, x ∈ l → ¬ P x) → filter P l = [].
Proof.
  induction l as [|x l IH]; intros Hall; [done|].
  rewrite filter_cons_False by (apply Hall; by left).
  apply IH. intros y Hy. apply Hall. by right.
Qed.

Lemma filter_all (l : list A) : (∀ x, x ∈ l → P x) → filter P l = l.
Proof.
  induction l as [|x l IH]; intros Hall; [done|].
  rewrite filter_cons_True by (apply Hall; by left).
  f_equal. apply IH. intros y Hy. apply Hall. by right.
Qed.

Lemma filter_agree (l : list A) :
  (∀ x, x ∈ l → P x ↔ Q x) → filter P l = filter Q l.
Proof.
  induction l as [|x l IH]; intros Hall; [done|].
  assert (HPQ : P x ↔ Q x) by (apply Hall; by left).
  assert (Hl : filter P l = filter Q l).
  { apply IH. intros y Hy. apply Hall. by right. }
  destruct (decide (P x)) as [HP|HP].
  - rewrite !filter_cons_True by tauto. by f_equal.
  - rewrite !filter_cons_False by tauto. done.
Qed.

End Filter.

(** In a list without two elements of the same key, the elements with
    the key of [x] are [x] alone. *)
Lemma filter_key_NoDup {A B : Type} `{EqDecision B} (f : A → B) (l : list A) x :
  NoDup (f <$> l) → x ∈ l → filter (λ y, f y = f x) l = [x].
Proof.
  induction l as [|y l IH]; intros Hnd Hx; [by apply elem_of_nil in Hx|].
  rewrite fmap_cons in Hnd. apply NoDup_cons in Hnd as [Hy Hnd].
  apply elem_of_cons in Hx as [<-|Hx].
  - rewrite filter_cons_True by done. f_equal.
    apply filter_none. intros z Hz Heq. apply Hy. rewrite <-Heq.
    apply list_elem_of_fmap. by exists z.
  - rewrite filter_cons_False; [by apply IH|].
    intros Heq. apply Hy. rewrite Heq. apply list_elem_of_fmap. by exists x.
Qed.

End ListFacts.

(** * Properties of the storage engine *)

Module EngineFacts.
Import Engine.

Create HintDb engine.
#[export] Hint Constructors grows : engine.

Lemma insert_row_returned t b k lm t' :
  insert_row t (b, k, lm) = Returned t' →
  ((b, k) ∉ (row_identity <$> t)) ∧ t' = t ++ [Row (next_id t) b k lm].
Proof.
  unfold insert_row. case_bool_decide; [done|]. by intros [= <-].
Qed.

Lemma insert_row_raised t b k lm e :
  insert_row t (b, k, lm) = Raised e →
  (b, k) ∈ (row_identity <$> t) ∧ ∃ msg, e = IntegrityError msg.
Proof.
  unfold insert_row. case_bool_decide; [|done]. intros [= <-]. eauto.
Qed.

Lemma insert_row_fresh t b k lm :
  (b, k) ∉ (row_identity <$> t) →
  insert_row t (b, k, lm) = Returned (t ++ [Row (next_id t) b k lm]).
Proof. intros. unfold insert_row. by rewrite bool_decide_eq_false_2. Qed.

Lemma insert_row_present t b k lm :
  (b, k) ∈ (row_identity <$> t) → is_returned (insert_row t (b, k, lm)) = false.
Proof. intros. unfold insert_row. by rewrite bool_decide_eq_true_2. Qed.

Lemma grows_trans t1 t2 t3 : grows t1 t2 → grows t2 t3 → grows t1 t3.
Proof. intros H12 H23. induction H23; eauto with engine. Qed.

Lemma grows_step t v t' : insert_row t v = Returned t' → grows t t'.
Proof. eauto with engine. Qed.

Lemma grows_prefix t t' : grows t t' → ∃ added, t' = t ++ added.
Proof.
  induction 1 as [t|t t' [[b k] lm] t'' _ [added ->] Hins].
  - exists []. by rewrite app_nil_r.
  - apply insert_row_returned in Hins as [_ ->].
    eexists. by rewrite <-app_assoc.
Qed.

Lemma grows_length t t' : grows t t' → (length t ≤ length t')%nat.
Proof. intros [added ->]%grows_prefix. rewrite length_app. lia. Qed.

Lemma grows_NoDup t t' :
  grows t t' → NoDup (row_identity <$> t) → NoDup (row_identity <$> t').
Proof.
  induction 1 as [t|t t' [[b k] lm] t'' _ IH Hins]; [done|].
  intros Hnd. apply insert_row_returned in Hins as [Hfresh ->].
  rewrite fmap_app. apply NoDup_app. split_and!; [by apply IH| |apply NoDup_singleton].
  intros i Hi ->%list_elem_of_singleton. done.
Qed.

(** Rows of an identity that is already stored are left as they are. *)
Lemma grows_frame t t' i :
  grows t t' → i ∈ (row_identity <$> t) →
  filter (λ r, row_identity r = i) t' = filter (λ r, row_identity r = i) t.
Proof.
  induction 1 as [t|t t' [[b k] lm] t'' Hg IH Hins]; [done|].
  intros Hi. apply insert_row_returned in Hins as [Hfresh ->].
  rewrite filter_app, IH by done.
  rewrite filter_cons_False, filter_nil, app_nil_r; [done|].
  cbn. intros <-. apply Hfresh.
  destruct (grows_prefix _ _ Hg) as [added ->]. rewrite fmap_app, elem_of_app. by left.
Qed.

Lemma grows_identities_mono t t' i :
  grows t t' → i ∈ (row_identity <$> t) → i ∈ (row_identity <$> t').
Proof. intros [added ->]%grows_prefix. rewrite fmap_app, elem_of_app. by left. Qed.

(** ** Statements on a connection *)

Lemma insert_accepted c t b k lm :
  view c = Some t → (b, k) ∉ (row_identity <$> t) →
  insert c (b, k, lm) =
    (Connection (file c) (Some (Some (t ++ [Row (next_id t) b k lm]))), Returned tt).
Proof.
  intros Hv Hfresh. unfold insert. rewrite Hv. cbn [insert_into].
  by rewrite insert_row_fresh.
Qed.

Lemma insert_refused c t b k lm :
  view c = Some t → (b, k) ∈ (row_identity <$> t) →
  ∃ msg, insert c (b, k, lm) =
           (Connection (file c) (Some (Some t)), Raised (IntegrityError msg)).
Proof.
  intros Hv Hin. unfold insert. rewrite Hv. cbn [insert_into].
  unfold insert_row. rewrite bool_decide_eq_true_2 by done. eauto.
Qed.

(** Whatever an [INSERT] answers, the file is untouched and the view
    grows by at most that row. *)
Lemma insert_view c t v c' r :
  view c = Some t → insert c v = (c', r) →
  file c' = file c ∧
  ∃ t', view c' = Some t' ∧ grows t t' ∧
        match r with
        | Returned _ => insert_row t v = Returned t'
        | Raised _ => t' = t ∧ is_returned (insert_row t v) = false
        end.
Proof.
  intros Hv. unfold insert. rewrite Hv. cbn [insert_into].
  destruct (insert_row t v) as [t'|e] eqn:Hins; intros [= <- <-]; cbn.
  - split; [done|]. exists t'. eauto using grows_step.
  - split; [done|]. exists t. eauto with engine.
Qed.

End EngineFacts.

(** * Properties of the index store *)

Module DbFacts.
Import Engine EngineFacts Db ListFacts.

Lemma separate_spec (existing_keys : gset identity) keys new_keys skipped :
  separate existing_keys keys new_keys skipped =
    (new_keys ++ filter (λ k, key_identity k ∉ existing_keys) keys,
     skipped + Z.of_nat (length (filter (λ k, key_identity k ∈ existing_keys) keys))).
Proof.
  revert new_keys skipped.
  induction keys as [|d keys IH]; intros new_keys skipped; cbn [separate].
  - rewrite !filter_nil, app_nil_r. f_equal. cbn. lia.
  - fold (key_identity d). case_bool_decide as Hd; rewrite IH.
    + rewrite filter_cons_False by (intros Hn; by apply Hn).
      rewrite filter_cons_True by done. cbn [length]. f_equal. lia.
    + rewrite filter_cons_True by done.
      rewrite filter_cons_False by done. by rewrite <-app_assoc.
Qed.

Lemma pairs_of_flat (pairs : list identity) :
  pairs_of (pairs ≫= (λ pair, [pair.1; pair.2])) = pairs.
Proof. induction pairs as [|[b k] pairs IH]; [done|]. cbn. by rewrite IH. Qed.

Lemma length_flat (pairs : list identity) :
  length (pairs ≫= (λ pair, [pair.1; pair.2])) = (2 * length pairs)%nat.
Proof. induction pairs as [|[b k] pairs IH]; [done|]. cbn in *. lia. Qed.

Lemma values_of_cons d ks :
  values_of (d :: ks) = (bucket d, key d, last_modified d) :: values_of ks.
Proof. done. Qed.

Lemma length_values_of ks : length (values_of ks) = length ks.
Proof. apply length_fmap. Qed.

Lemma row_values_identities added ks :
  row_values <$> added = values_of ks →
  row_identity <$> added = key_identity <$> ks.
Proof.
  intros Hvals. apply (f_equal (fmap fst)) in Hvals.
  unfold values_of in Hvals. by rewrite <-!list_fmap_compose in Hvals.
Qed.


(** ** [executemany] *)

(** However [executemany] ends, the file is untouched and the working
    copy grew by accepted rows; when it returns, every value is a row. *)
Lemma executemany_loop_inv ks f i c t rowcount c' r :
  view c = Some t →
  executemany_loop f i c (values_of ks) rowcount = (c', r) →
  file c' = file c ∧
  ∃ added, view c' = Some (t ++ added) ∧ grows t (t ++ added) ∧
    ∀ rowcount', r = Returned rowcount' →
      rowcount' = rowcount + Z.of_nat (length ks) ∧
      row_values <$> added = values_of ks.
Proof.
  revert i c t rowcount.
  induction ks as [|d ks IH]; intros i c t rowcount Hv; cbn [values_of fmap list_fmap executemany_loop].
  - intros [= <- <-]. split; [done|]. exists []. rewrite app_nil_r.
    split_and!; [done|constructor|]. intros ? [= <-]. split; [cbn; lia|done].
  - case_bool_decide as Hfault.
    { intros [= <- <-]. split; [done|]. exists []. rewrite app_nil_r.
      split_and!; [done|constructor|done]. }
    destruct (insert c _) as [c1 [[]|e]] eqn:Hins.
    + destruct (insert_view _ _ _ _ _ Hv Hins) as (Hfile & t1 & Hv1 & Hg & Hrow).
      apply insert_row_returned in Hrow as [Hfresh ->].
      intros Hloop. destruct (IH _ _ _ _ Hv1 Hloop) as (Hfile' & added & Hv' & Hg' & Hret).
      split; [congruence|]. eexists (_ :: added).
      rewrite <-app_assoc in Hv', Hg'. cbn [app] in Hv', Hg'.
      split_and!; [done|by eapply grows_trans|].
      intros rc' Hr. destruct (Hret _ Hr) as [-> Hvals].
      split; [cbn [length]; lia|]. rewrite fmap_cons. by f_equal.
    + destruct (insert_view _ _ _ _ _ Hv Hins) as (Hfile & t1 & Hv1 & Hg & -> & _).
      intros [= <- <-]. split; [done|]. exists []. rewrite app_nil_r.
      split_and!; [done|constructor|done].
Qed.



(** ** The per-row loop *)

(** The loop adds the rows of the statements that succeeded, counts
    exactly those, and every descriptor whose statement the environment
    did not fail has its identity stored afterwards. *)
Lemma individual_inserts_inv ks f i c t count :
  view c = Some t →
  ∃ c' succeeded added,
    individual_inserts f i c ks count = (c', count + Z.of_nat (length added)) ∧
    file c' = file c ∧ view c' = Some (t ++ added) ∧ grows t (t ++ added) ∧
    sublist succeeded ks ∧ row_values <$> added = values_of succeeded ∧
    ∀ j d, ks !! j = Some d → execute_fault f (i + j) = false →
           key_identity d ∈ (row_identity <$> (t ++ added)).
Proof.
  revert i c t count.
  induction ks as [|d ks IH]; intros i c t count Hv.
  { exists c, [], []. rewrite app_nil_r. cbn [individual_inserts length].
    split_and!; [f_equal; lia|done|done|constructor|done|done|].
    intros j d Hj. by rewrite lookup_nil in Hj. }
  cbn [individual_inserts]. unfold execute_insert.
  destruct (execute_fault f i) eqn:Hfault.
  - destruct (IH (S i) c t count Hv)
      as (c' & succeeded & added & -> & Hfile & Hv' & Hg & Hsub & Hvals & Hall).
    exists c', succeeded, added.
    split_and!; [done|done|done|done|by constructor|done|].
    intros [|j] d'; cbn [lookup list_lookup].
    + rewrite Nat.add_0_r. congruence.
    + intros Hj Hf. apply (Hall j d' Hj). by rewrite Nat.add_succ_comm.
  - destruct (decide (key_identity d ∈ (row_identity <$> t))) as [Hin|Hfresh].
    + destruct (insert_refused c t (bucket d) (key d) (last_modified d) Hv Hin)
        as [msg ->].
      destruct (IH (S i) (Connection (file c) (Some (Some t))) t count eq_refl)
        as (c' & succeeded & added & -> & Hfile & Hv' & Hg & Hsub & Hvals & Hall).
      exists c', succeeded, added.
      split_and!; [done|done|done|done|by constructor|done|].
      intros [|j] d'; cbn [lookup list_lookup].
      * intros [= <-] _. rewrite fmap_app, elem_of_app. by left.
      * intros Hj Hf. apply (Hall j d' Hj). by rewrite Nat.add_succ_comm.
    + rewrite (insert_accepted c t) by done.
      set (r := Row (next_id t) (bucket d) (key d) (last_modified d)).
      destruct (IH (S i) (Connection (file c) (Some (Some (t ++ [r]))))
                  (t ++ [r]) (count + 1) eq_refl)
        as (c' & succeeded & added & -> & Hfile & Hv' & Hg & Hsub & Hvals & Hall).
      rewrite <-app_assoc in Hv', Hg, Hall. cbn [app] in Hv', Hg, Hall.
      exists c', (d :: succeeded), (r :: added).
      split_and!; [f_equal; cbn [length]; lia|done|done| |by constructor| |].
      * eapply grows_trans; [|done]. eapply grows_step.
        by apply insert_row_fresh.
      * rewrite fmap_cons, values_of_cons. by f_equal.
      * intros [|j] d'; cbn [lookup list_lookup].
        -- intros [= <-] _. rewrite fmap_app, fmap_cons, elem_of_app.
           right. by left.
        -- intros Hj Hf. apply (Hall j d' Hj). by rewrite Nat.add_succ_comm.
Qed.


(** ** The batch path *)

Lemma batch_insert_inv f t ks c' r :
  batch_insert f (connect (Some t)) ks = (c', r) →
  match r with
  | Returned count =>
      count = Z.of_nat (length ks) ∧
      ∃ added, c' = Connection (Some (t ++ added)) None ∧
               grows t (t ++ added) ∧ row_values <$> added = values_of ks
  | Raised _ => file c' = Some t ∧ ks ≠ []
  end.
Proof.
  unfold batch_insert, begin_transaction, connect. cbn [txn file].
  destruct ks as [|d ks].
  { intros [= <- <-]. split; [done|]. exists []. rewrite app_nil_r.
    split_and!; [done|constructor|done]. }
  unfold executemany.
  destruct (executemany_loop _ _ _ _ _) as [c1 [rowcount|e]] eqn:Hloop;
    intros [= <- <-];
    apply (executemany_loop_inv _ _ _ _ t) in Hloop
      as (Hfile & added & Hv & Hg & Hret); try done.
  destruct (Hret _ eq_refl) as [-> Hvals].
  split. { case_match; [lia|done]. }
  exists added. unfold commit. by rewrite Hv.
Qed.



Section Limits.

Variable max_variable_number : nat.

#[local] Abbreviation get_existing_keys := (get_existing_keys max_variable_number).
#[local] Abbreviation save_keys_to_db := (save_keys_to_db max_variable_number).

Lemma get_existing_keys_too_many db keys :
  (max_variable_number < 2 * length keys)%nat →
  get_existing_keys db keys = Raised (OperationalError "too many SQL variables").
Proof.
  intros Hlen. destruct keys as [|d keys]; [cbn in Hlen; lia|].
  unfold get_existing_keys, select_bucket_key_in.
  rewrite length_flat, length_fmap, bool_decide_eq_true_2; done.
Qed.

Lemma get_existing_keys_returns t keys :
  (2 * length keys ≤ max_variable_number)%nat →
  ∃ existing_keys : gset identity,
    get_existing_keys (Some t) keys = Returned existing_keys ∧
    ∀ i, i ∈ existing_keys ↔
         i ∈ (row_identity <$> t) ∧ i ∈ (key_identity <$> keys).
Proof.
  intros Hlen. destruct keys as [|d keys].
  - exists ∅. split; [done|]. intros i. rewrite elem_of_empty, fmap_nil, elem_of_nil. tauto.
  - unfold get_existing_keys, select_bucket_key_in.
    rewrite length_flat, length_fmap, bool_decide_eq_false_2 by lia.
    eexists. split; [done|]. intros i.
    rewrite elem_of_list_to_set, list_elem_of_filter, pairs_of_flat.
    tauto.
Qed.

Lemma get_existing_keys_inv db keys existing_keys :
  get_existing_keys db keys = Returned existing_keys →
  (keys = [] ∨ (2 * length keys ≤ max_variable_number)%nat ∧ is_Some db) ∧
  ∀ i, i ∈ existing_keys ↔
       i ∈ identities db ∧ i ∈ (key_identity <$> keys).
Proof.
  intros Hget.
  destruct keys as [|d keys].
  { injection Hget as <-. split; [by left|]. intros i. rewrite elem_of_empty, fmap_nil, elem_of_nil. tauto. }
  destruct (decide (max_variable_number < 2 * length (d :: keys))%nat) as [Hlt|Hle].
  { by rewrite get_existing_keys_too_many in Hget. }
  destruct db as [t|].
  - destruct (get_existing_keys_returns t (d :: keys)) as (E & HE & Hspec); [lia|].
    rewrite HE in Hget. injection Hget as <-.
    split; [right; split; [lia|done]|]. done.
  - unfold Db.get_existing_keys, select_bucket_key_in in Hget.
    by case_bool_decide.
Qed.

Lemma setup_database_rows db : setup_database db = Some (rows db).
Proof. by destruct db. Qed.

(** [save_keys_to_db] once the existence check has answered. *)
Lemma save_keys_to_db_unfold f db keys existing_keys :
  keys ≠ [] →
  get_existing_keys (setup_database db) keys = Returned existing_keys →
  save_keys_to_db f db keys =
    let new_keys := filter (λ k, key_identity k ∉ existing_keys) keys in
    let skipped :=
      Z.of_nat (length (filter (λ k, key_identity k ∈ existing_keys) keys)) in
    match batch_insert f (connect (setup_database db)) new_keys with
    | (conn, Returned count) => (file conn, Returned (count, skipped))
    | (conn, Raised _) =>
        let '(conn, count) := individual_inserts f 0 (rollback conn) new_keys 0 in
        (file (commit conn), Returned (count, skipped))
    end.
Proof.
  intros Hne Hget. destruct keys as [|d keys]; [done|].
  unfold Db.save_keys_to_db. rewrite Hget, separate_spec. cbn [app].
  rewrite Z.add_0_l. by repeat case_match.
Qed.

(** Every call leaves a table that grew from the one it found. *)
Lemma save_keys_to_db_grows f db keys :
  grows (rows db) (rows (save_keys_to_db f db keys).1).
Proof.
  destruct keys as [|d keys]; [constructor|].
  destruct (get_existing_keys (setup_database db) (d :: keys)) as [E|e] eqn:Hget.
  2:{ unfold Db.save_keys_to_db. rewrite Hget. cbn [fst].
      rewrite setup_database_rows. constructor. }
  rewrite (save_keys_to_db_unfold _ _ _ E) by done. cbn zeta.
  rewrite setup_database_rows.
  destruct (batch_insert _ _ _) as [c [count|e]] eqn:Hbatch;
    apply batch_insert_inv in Hbatch.
  - destruct Hbatch as (_ & added & -> & Hg & _). done.
  - destruct Hbatch as [Hfile _].
    destruct (individual_inserts_inv
                (filter (λ k, key_identity k ∉ E) (d :: keys)) f 0 (rollback c)
                (rows db) 0 Hfile)
      as (c' & succeeded & added & -> & _ & Hv' & Hg & _).
    cbn [fst commit file]. by rewrite Hv'.
Qed.

Lemma saves_grows db calls :
  grows (rows db) (rows (saves max_variable_number db calls)).
Proof.
  revert db. induction calls as [|[f keys] calls IH]; intros db; [constructor|].
  cbn [saves]. eapply grows_trans; [apply save_keys_to_db_grows|apply IH].
Qed.

(** When every descriptor is stored already, nothing is inserted. *)
Lemma save_keys_to_db_all_stored f t keys :
  (2 * length keys ≤ max_variable_number)%nat →
  (∀ d, d ∈ keys → key_identity d ∈ (row_identity <$> t)) →
  save_keys_to_db f (Some t) keys = (Some t, Returned (0, Z.of_nat (length keys))).
Proof.
  intros Hlen Hall. destruct keys as [|d keys]; [done|].
  destruct (get_existing_keys_returns t (d :: keys) Hlen) as (E & Hget & HE).
  rewrite (save_keys_to_db_unfold _ _ _ E) by done. cbn zeta.
  assert (HallE : ∀ k, k ∈ d :: keys → key_identity k ∈ E).
  { intros k Hk. apply HE. split; [by apply Hall|].
    apply list_elem_of_fmap. by exists k. }
  replace (filter (λ k, key_identity k ∉ E) (d :: keys)) with (@nil key_info).
  2:{ symmetry. apply filter_none. intros k Hk Hn. by apply Hn, HallE. }
  by rewrite filter_all.
Qed.


(** ** Uniqueness *)

(** C1. Whatever sequence of [save_keys_to_db] calls runs, with whatever
    inputs and engine faults, on a fresh store or on a store that has at
    most one row per [(bucket, key)], the store afterwards has at most
    one row per [(bucket, key)]. *)
Theorem save_keys_to_db_uniqueness :
  (∀ calls, unique_rows (saves max_variable_number None calls)) ∧
  (∀ db calls, unique_rows db → unique_rows (saves max_variable_number db calls)).
Proof.
  assert (Hstep : ∀ db calls,
            unique_rows db → unique_rows (saves max_variable_number db calls)).
  { intros db calls Hu. unfold unique_rows, identities in *.
    by eapply grows_NoDup; [apply saves_grows|]. }
  split; [|done]. intros calls. apply Hstep. constructor.
Qed.

(** ** Insert-if-absent *)

(** C9. A row that is stored before a [save_keys_to_db] call is stored
    after it, and the rows of its identity are the same before and after:
    no field of it changes and no second row of that identity appears,
    whatever [last_modified] the input gives for that identity. On a
    store with unique identities the row is the only one of its
    identity afterwards. *)
Theorem save_keys_to_db_frame f db keys r :
  r ∈ rows db →
  let after := rows (save_keys_to_db f db keys).1 in
  r ∈ after ∧
  filter (λ r', row_identity r' = row_identity r) after =
    filter (λ r', row_identity r' = row_identity r) (rows db) ∧
  (unique_rows db → filter (λ r', row_identity r' = row_identity r) after = [r]).
Proof.
  intros Hr after. pose proof (save_keys_to_db_grows f db keys) as Hg.
  fold after in Hg.
  assert (Hframe : filter (λ r', row_identity r' = row_identity r) after =
                   filter (λ r', row_identity r' = row_identity r) (rows db)).
  { apply grows_frame; [done|]. apply list_elem_of_fmap. by exists r. }
  split_and!; [|done|].
  - destruct (grows_prefix _ _ Hg) as [added ->]. rewrite elem_of_app. by left.
  - intros Hu. rewrite Hframe. by apply filter_key_NoDup.
Qed.

(** ** The partition of the input *)


(** ** Idempotence *)


(** ** The per-row fallback *)

(** C4. When the batch insert of the new descriptors raises, the
    transaction is rolled back (the connection sees the table as it was),
    the new descriptors are inserted one by one, and the call returns:
    the rows added to the file are exactly those of the statements that
    succeeded, in order; the inserted count is their number; and every
    new descriptor whose statement the environment did not fail has its
    identity in the file afterwards. *)
Theorem save_keys_to_db_fallback f db keys existing_keys conn e :
  get_existing_keys (setup_database db) keys = Returned existing_keys →
  let new_keys := (separate existing_keys keys [] 0).1 in
  let skipped := (separate existing_keys keys [] 0).2 in
  batch_insert f (connect (setup_database db)) new_keys = (conn, Raised e) →
  view (rollback conn) = setup_database db ∧
  ∃ succeeded added,
    save_keys_to_db f db keys =
      (Some (rows db ++ added), Returned (Z.of_nat (length added), skipped)) ∧
    sublist succeeded new_keys ∧
    row_values <$> added = values_of succeeded ∧
    ∀ j d, new_keys !! j = Some d → execute_fault f j = false →
           key_identity d ∈ identities (Some (rows db ++ added)).
Proof.
  intros Hget new_keys skipped Hbatch.
  destruct (decide (keys = [])) as [->|Hne]; [done|].
  rewrite (save_keys_to_db_unfold _ _ _ _ Hne Hget). cbn zeta.
  subst new_keys skipped. rewrite separate_spec in *. cbn [fst snd app] in *.
  rewrite Z.add_0_l. rewrite Hbatch.
  rewrite setup_database_rows in *.
  apply batch_insert_inv in Hbatch as [Hfile _].
  split; [done|].
  destruct (individual_inserts_inv
              (filter (λ k, key_identity k ∉ existing_keys) keys) f 0
              (rollback conn) (rows db) 0 Hfile)
    as (c' & succeeded & added & -> & _ & Hv' & _ & Hsub & Hvals & Hall).
  exists succeeded, added. unfold commit. rewrite Hv'. cbn [file].
  rewrite Z.add_0_l. done.
Qed.

(** ** Two descriptors of one identity in the same input *)


(** ** The existence check and the engine's parameter ceiling *)

(** C5, as the code has it. On a store whose table has been set up, for
    a candidate list of at most half the engine's maximum number of bound
    parameters, [get_existing_keys] returns exactly the input identities
    that are stored; for a longer list the engine refuses the query and
    the error is raised to the caller. *)
Theorem get_existing_keys_within_ceiling db keys :
  ((2 * length keys ≤ max_variable_number)%nat →
   ∃ existing_keys : gset identity,
     get_existing_keys (setup_database db) keys = Returned existing_keys ∧
     ∀ i, i ∈ existing_keys ↔ i ∈ identities db ∧ i ∈ (key_identity <$> keys)) ∧
  ((max_variable_number < 2 * length keys)%nat →
   get_existing_keys (setup_database db) keys =
     Raised (OperationalError "too many SQL variables")).
Proof.
  split.
  - intros Hlen. rewrite setup_database_rows.
    by apply get_existing_keys_returns.
  - apply get_existing_keys_too_many.
Qed.

End Limits.

(** ** Instances *)

Import Examples.

Lemma save_keys_to_db_uniqueness_witness :
  unique_rows store_AB ∧
  unique_rows (saves 999 store_AB
                 [(no_faults, [key_A; key_C; key_D]);
                  (patched, [key_C_again; key_E; key_E])]).
Proof.
  assert (Hu : unique_rows store_AB).
  { decide_by_evaluation. }
  split; [exact Hu|].
  exact (proj2 (save_keys_to_db_uniqueness 999) store_AB _ Hu).
Defined.

Lemma save_keys_to_db_frame_witness :
  row_A ∈ rows store_AB ∧
  let after := rows (save_keys_to_db 999 no_faults store_AB [key_A_again; key_C]).1 in
  row_A ∈ after ∧
  filter (λ r', row_identity r' = row_identity row_A) after =
    filter (λ r', row_identity r' = row_identity row_A) (rows store_AB) ∧
  (unique_rows store_AB →
   filter (λ r', row_identity r' = row_identity row_A) after = [row_A]).
Proof.
  assert (Hin : row_A ∈ rows store_AB).
  { decide_by_evaluation. }
  split; [exact Hin|].
  exact (save_keys_to_db_frame 999 no_faults store_AB [key_A_again; key_C] row_A Hin).
Defined.



Lemma save_keys_to_db_fallback_witness :
  get_existing_keys 999 (setup_database store_AB) [key_A; key_C; key_D; key_E] =
    Returned (list_to_set [("b", "A")]) ∧
  batch_insert patched (connect (setup_database store_AB)) [key_C; key_D; key_E] =
    (Connection store_AB (Some store_AB), Raised (OtherError "executemany failed")) ∧
  view (rollback (Connection store_AB (Some store_AB))) = setup_database store_AB ∧
  ∃ succeeded added,
    save_keys_to_db 999 patched store_AB [key_A; key_C; key_D; key_E] =
      (Some (rows store_AB ++ added), Returned (Z.of_nat (length added), 1)) ∧
    sublist succeeded [key_C; key_D; key_E] ∧
    row_values <$> added = values_of succeeded ∧
    ∀ j d, [key_C; key_D; key_E] !! j = Some d → execute_fault patched j = false →
           key_identity d ∈ identities (Some (rows store_AB ++ added)).
Proof.
  assert (Hget : get_existing_keys 999 (setup_database store_AB)
                   [key_A; key_C; key_D; key_E] =
                 Returned (list_to_set [("b", "A")])) by (vm_compute; reflexivity).
  assert (Hbatch : batch_insert patched (connect (setup_database store_AB))
                     [key_C; key_D; key_E] =
                   (Connection store_AB (Some store_AB),
                    Raised (OtherError "executemany failed")))
    by (vm_compute; reflexivity).
  split; [exact Hget|]. split; [exact Hbatch|].
  exact (save_keys_to_db_fallback 999 patched store_AB
           [key_A; key_C; key_D; key_E] _ _ _ Hget Hbatch).
Defined.


Lemma get_existing_keys_within_ceiling_witness :
  (2 * length [key_A; key_C] ≤ 999)%nat ∧
  ∃ existing_keys : gset identity,
    get_existing_keys 999 (setup_database store_AB) [key_A; key_C] =
      Returned existing_keys ∧
    ∀ i, i ∈ existing_keys ↔
         i ∈ identities store_AB ∧ i ∈ (key_identity <$> [key_A; key_C]).
Proof.
  assert (Hlen : (2 * length [key_A; key_C] ≤ 999)%nat) by (simpl; lia).
  split; [exact Hlen|].
  exact (proj1 (get_existing_keys_within_ceiling 999 store_AB [key_A; key_C]) Hlen).
Defined.

(** C5 as stated fails: with the ceiling of 999 parameters, 500 candidates
    make the query fail; and on a store whose table was never created the
    check fails for any candidate. *)
Lemma get_existing_keys_counterexample :
  get_existing_keys 999 store_AB (replicate 500 key_A) =
    Raised (OperationalError "too many SQL variables") ∧
  get_existing_keys 999 None [key_A] =
    Raised (OperationalError "no such table: s3_keys").
Proof. split; vm_compute; reflexivity. Qed.

End DbFacts.

(** * Properties of [LIKE] and of the search *)

Module SearchFacts.
Import Like Engine Db.

Lemma append_cons a s1 s2 : String a s1 +:+ s2 = String a (s1 +:+ s2).
Proof. reflexivity. Qed.

Lemma append_empty s : EmptyString +:+ s = s.
Proof. reflexivity. Qed.

Lemma like_percent pattern s :
  like (String percent pattern) s =
    like pattern s ||
    match s with
    | EmptyString => false
    | String _ s' => like (String percent pattern) s'
    end.
Proof. by destruct s. Qed.

Lemma like_only_percent s : like (String percent EmptyString) s = true.
Proof.
  induction s as [|c s IH]; [done|].
  rewrite like_percent, IH. apply orb_true_r.
Qed.





Lemma starts_with_spec q s :
  starts_with q s = true ↔ ∃ post, s = q +:+ post.
Proof.
  revert s. induction q as [|a q IH]; intros s; cbn [starts_with].
  { split; [|done]. intros _. by exists s. }
  destruct s as [|c s].
  { split; [done|]. by intros [post ?]. }
  rewrite andb_true_iff, IH, bool_decide_eq_true. split.
  - intros [-> [post ->]]. by exists post.
  - intros [post Hs]. rewrite append_cons in Hs. injection Hs as -> ->. eauto.
Qed.

Lemma contains_spec q s :
  contains q s = true ↔ ∃ pre post, s = pre +:+ q +:+ post.
Proof.
  induction s as [|c s IH]; cbn [contains];
    rewrite orb_true_iff, starts_with_spec.
  - split.
    + intros [[post Hs]|?]; [|done]. by exists EmptyString, post.
    + intros (pre & post & Hs). left. destruct pre; [|done]. by exists post.
  - rewrite IH. split.
    + intros [[post Hs]|(pre & post & ->)].
      * by exists EmptyString, post.
      * by exists (String c pre), post.
    + intros (pre & post & Hs). destruct pre as [|c' pre].
      * left. eauto.
      * right. rewrite append_cons in Hs. injection Hs as -> ->. eauto.
Qed.

(** ** [search_keys] *)




End SearchFacts.

(** * Properties of the listing source *)

Module S3Facts.
Import S3.

Lemma concat_yield_if_any batch : concat (yield_if_any batch) = batch.
Proof. destruct batch; [done|]. cbn. by rewrite app_nil_r. Qed.

(** ** Nothing received is lost, whatever the batch size *)

Lemma contents_loop_concat bucket_name batch_size contents batch :
  concat (contents_loop bucket_name batch_size contents batch).1 ++
    (contents_loop bucket_name batch_size contents batch).2 =
  batch ++ (descriptor bucket_name <$> contents).
Proof.
  revert batch. induction contents as [|obj contents IH]; intros batch.
  { cbn. by rewrite app_nil_r. }
  cbn [contents_loop]. fold (descriptor bucket_name obj).
  rewrite fmap_cons. case_match.
  - specialize (IH []). destruct (contents_loop _ _ contents []) as [ys b'].
    cbn [fst snd concat] in *. by rewrite <-!app_assoc, IH.
  - by rewrite IH, <-app_assoc.
Qed.

Lemma pages_loop_concat bucket_name batch_size pages batch :
  concat (pages_loop bucket_name batch_size pages batch) =
  batch ++ (descriptor bucket_name <$> received pages).
Proof.
  revert batch.
  induction pages as [|[contents|] pages IH|e]; intros batch;
    cbn [pages_loop received].
  - by rewrite concat_yield_if_any, fmap_nil, app_nil_r.
  - pose proof (contents_loop_concat bucket_name batch_size contents batch) as Hc.
    destruct (contents_loop _ _ contents batch) as [ys b'].
    cbn [fst snd] in Hc.
    by rewrite concat_app, IH, fmap_app, !app_assoc, Hc.
  - apply IH.
  - by rewrite concat_yield_if_any, fmap_nil, app_nil_r.
Qed.

(** ** The shape of the batches for a positive batch size *)

Section Shape.
Variable bucket_name : string.
Variable batch_size : Z.
Hypothesis batch_size_positive : 0 < batch_size.

Lemma contents_loop_shape contents batch :
  Z.of_nat (length batch) < batch_size →
  Forall (full batch_size) (contents_loop bucket_name batch_size contents batch).1 ∧
  Z.of_nat (length (contents_loop bucket_name batch_size contents batch).2)
    < batch_size.
Proof.
  revert batch. induction contents as [|obj contents IH]; intros batch Hlen.
  { by split; [constructor|]. }
  cbn [contents_loop].
  set (batch1 := batch ++ [KeyInfo bucket_name (Key obj) (LastModified obj)]).
  assert (Hlen1 : Z.of_nat (length batch1) = Z.of_nat (length batch) + 1).
  { unfold batch1. rewrite length_app. cbn. lia. }
  destruct (Z.leb_spec batch_size (Z.of_nat (length batch1))) as [Hge|Hlt].
  - destruct (IH []) as [Hfull Hrest]; [cbn; lia|].
    destruct (contents_loop _ _ contents []) as [ys b']. cbn [fst snd] in *.
    split; [|done]. constructor; [|done]. unfold full. lia.
  - by apply IH.
Qed.

(** Full batches, then what is buffered when the listing ends or fails. *)
Lemma pages_loop_shape pages batch :
  Z.of_nat (length batch) < batch_size →
  ∃ fulls rest,
    pages_loop bucket_name batch_size pages batch = fulls ++ yield_if_any rest ∧
    Forall (full batch_size) fulls ∧ Z.of_nat (length rest) < batch_size.
Proof.
  revert batch.
  induction pages as [|[contents|] pages IH|e]; intros batch Hlen;
    cbn [pages_loop].
  - by exists [], batch.
  - destruct (contents_loop_shape contents batch Hlen) as [Hfull Hrest].
    destruct (contents_loop _ _ contents batch) as [ys b']. cbn [fst snd] in *.
    destruct (IH b' Hrest) as (fulls & rest & -> & Hfulls & Hlt).
    exists (ys ++ fulls), rest. rewrite app_assoc.
    split_and!; [done| |done]. by apply Forall_app.
  - by apply IH.
  - by exists [], batch.
Qed.

Lemma length_concat_full fulls :
  Forall (full batch_size) fulls →
  Z.of_nat (length (concat fulls)) = batch_size * Z.of_nat (length fulls).
Proof.
  induction 1 as [|b fulls Hb _ IH]; [cbn; lia|].
  cbn [concat length]. rewrite length_app. unfold full in Hb. lia.
Qed.

(** Counting the batches of that shape. *)
Lemma shape_count fulls rest (n : Z) :
  Forall (full batch_size) fulls →
  Z.of_nat (length rest) < batch_size →
  n = Z.of_nat (length (concat (fulls ++ yield_if_any rest))) →
  let batches := fulls ++ yield_if_any rest in
  Z.of_nat (length batches) = (n + batch_size - 1) / batch_size ∧
  (∀ i batch, batches !! i = Some batch → (S i < length batches)%nat →
              Z.of_nat (length batch) = batch_size) ∧
  (∀ batch, last batches = Some batch →
            Z.of_nat (length batch) =
              if n mod batch_size =? 0 then batch_size else n mod batch_size).
Proof.
  intros Hfulls Hrest Hn batches.
  rewrite concat_app, length_app, concat_yield_if_any, Nat2Z.inj_add,
    length_concat_full in Hn by done.
  set (k := Z.of_nat (length fulls)) in *.
  set (r := Z.of_nat (length rest)) in *.
  assert (Hk : 0 ≤ k) by (unfold k; lia).
  assert (Hr : 0 ≤ r) by (unfold r; lia).
  assert (Hmod : n mod batch_size = r).
  { symmetry. apply (Z.mod_unique _ _ k); lia. }
  assert (Hall : ∀ i batch, fulls !! i = Some batch →
                            Z.of_nat (length batch) = batch_size).
  { intros i batch Hi. eapply (Forall_lookup_1 (full batch_size)); done. }
  rewrite Hmod. subst batches. destruct rest as [|d rest]; cbn [yield_if_any].
  - rewrite app_nil_r. fold k. change r with 0 in *. split_and!.
    + apply (Z.div_unique _ _ _ (batch_size - 1)); lia.
    + intros i batch Hi _. by eapply Hall.
    + intros batch Hlast. cbn. apply last_Some_elem_of in Hlast.
      by eapply (proj1 (Forall_forall (full batch_size) fulls)).
  - rewrite length_app. cbn [length]. rewrite Nat2Z.inj_add. fold k.
    assert (Hr1 : 0 < r) by (unfold r; cbn [length]; lia).
    split_and!.
    + apply (Z.div_unique _ _ _ (r - 1)); lia.
    + intros i batch Hi Hlt. apply (Hall i).
      rewrite lookup_app_l in Hi; [done|lia].
    + intros batch Hlast. rewrite last_snoc in Hlast. injection Hlast as <-.
      fold r. destruct (Z.eqb_spec r 0); [lia|done].
Qed.

End Shape.

(** ** The batch-size contract *)

(** C7. For a positive batch size, the batches that [list_s3_keys] emits
    for a container, of which the listing delivered [n] objects, are
    [ceil(n / batch_size)] in number, all of size [batch_size] except
    possibly the last, which has size [n mod batch_size], or
    [batch_size] when that is zero; concatenated they are the
    descriptors in listing order. [list_s3_keys] emits these batches for
    the named container, or for each container in turn. *)
Theorem list_s3_keys_batches client batch_size bucket_name :
  0 < batch_size →
  let batches := list_bucket client batch_size bucket_name in
  let listed := received (paginate client bucket_name) in
  let n := Z.of_nat (length listed) in
  concat batches = descriptor bucket_name <$> listed ∧
  Z.of_nat (length batches) = (n + batch_size - 1) / batch_size ∧
  (∀ i batch, batches !! i = Some batch → (S i < length batches)%nat →
              Z.of_nat (length batch) = batch_size) ∧
  (∀ batch, last batches = Some batch →
            Z.of_nat (length batch) =
              if n mod batch_size =? 0 then batch_size else n mod batch_size) ∧
  (bucket_name ≠ "" →
   list_s3_keys client (Some bucket_name) batch_size = (batches, Returned tt)) ∧
  (∀ names, list_buckets client = Returned names →
            list_s3_keys client None batch_size =
              (names ≫= list_bucket client batch_size, Returned tt)).
Proof.
  intros Hpos batches listed n.
  assert (Hconcat : concat batches = descriptor bucket_name <$> listed).
  { apply (pages_loop_concat _ _ _ []). }
  destruct (pages_loop_shape bucket_name batch_size Hpos
              (paginate client bucket_name) []) as (fulls & rest & Hshape & Hfulls & Hrest);
    [cbn; lia|].
  fold (list_bucket client batch_size bucket_name) in Hshape. fold batches in Hshape.
  assert (Hn : n = Z.of_nat (length (concat (fulls ++ yield_if_any rest)))).
  { rewrite <-Hshape, Hconcat, length_fmap. done. }
  destruct (shape_count batch_size Hpos fulls rest n Hfulls Hrest Hn)
    as (Hcount & Hfull & Hlast).
  rewrite <-Hshape in Hcount, Hfull, Hlast.
  split_and!; [done..| |].
  - intros Hname. unfold list_s3_keys, buckets_of.
    rewrite bool_decide_eq_false_2 by done. cbn. by rewrite app_nil_r.
  - intros names Hnames. unfold list_s3_keys, buckets_of. by rewrite Hnames.
Qed.

(** ** A container that fails *)


Import Examples.

Lemma list_s3_keys_batches_witness :
  0 < 2 ∧
  let batches := list_bucket client 2 "photos" in
  let listed := received (paginate client "photos") in
  let n := Z.of_nat (length listed) in
  concat batches = descriptor "photos" <$> listed ∧
  Z.of_nat (length batches) = (n + 2 - 1) / 2 ∧
  (∀ i batch, batches !! i = Some batch → (S i < length batches)%nat →
              Z.of_nat (length batch) = 2) ∧
  (∀ batch, last batches = Some batch →
            Z.of_nat (length batch) = if n mod 2 =? 0 then 2 else n mod 2) ∧
  ("photos" ≠ "" →
   list_s3_keys client (Some "photos") 2 = (batches, Returned tt)) ∧
  (∀ names, list_buckets client = Returned names →
            list_s3_keys client None 2 =
              (names ≫= list_bucket client 2, Returned tt)).
Proof.
  split; [lia|].
  exact (list_s3_keys_batches client 2 "photos" ltac:(lia)).
Defined.


End S3Facts.

(** * Further properties of the index store *)

Module DbMore.
Import Engine EngineFacts Db ListFacts DbFacts.

Lemma length_filter_complement {A} (P : A → Prop) `{!∀ x, Decision (P x)}
    (l : list A) :
  (length (filter P l) + length (filter (λ x, ¬ P x) l) = length l)%nat.
Proof. rewrite <-length_app. apply Permutation_length, filter_app_complement. Qed.

Lemma setup_database_idempotent db :
  setup_database (setup_database db) = setup_database db.
Proof. by destruct db. Qed.

Lemma next_id_above t r : r ∈ t → col_id r < next_id t.
Proof.
  unfold next_id. induction t as [|r' t IH]; intros Hr.
  { by apply elem_of_nil in Hr. }
  cbn [foldr]. apply elem_of_cons in Hr as [->|Hr]; [lia|].
  specialize (IH Hr). lia.
Qed.

Lemma grows_ids_sorted t t' :
  grows t t' →
  StronglySorted Z.lt (col_id <$> t) → StronglySorted Z.lt (col_id <$> t').
Proof.
  induction 1 as [t|t t' [[b k] lm] t'' _ IH Hins]; [done|].
  intros Hs. apply insert_row_returned in Hins as [_ ->].
  rewrite fmap_app. apply StronglySorted_app_2; [|by apply IH|].
  - intros x1 x2 Hx1 Hx2. apply list_elem_of_singleton in Hx2 as ->.
    apply list_elem_of_fmap in Hx1 as (r & -> & Hr). cbn. by apply next_id_above.
  - repeat constructor.
Qed.

(** X23. The batch insert is atomic: either it returns, the count is
    the number of new descriptors and the file holds a row for each of
    them, in order, after the rows it had; or it raises and the file is
    as it was, which is also what the connection sees after the
    rollback. *)
Theorem batch_insert_atomic f t new_keys :
  ∃ conn outcome,
    batch_insert f (connect (Some t)) new_keys = (conn, outcome) ∧
    match outcome with
    | Returned count =>
        count = Z.of_nat (length new_keys) ∧
        ∃ added, conn = Connection (Some (t ++ added)) None ∧
                 row_values <$> added = values_of new_keys
    | Raised _ => file conn = Some t ∧ view (rollback conn) = Some t
    end.
Proof.
  destruct (batch_insert f (connect (Some t)) new_keys) as [conn outcome] eqn:Hbatch.
  exists conn, outcome. split; [done|].
  apply batch_insert_inv in Hbatch. destruct outcome as [count|e].
  - destruct Hbatch as (-> & added & -> & _ & Hvals). split; [done|]. by exists added.
  - destruct Hbatch as [Hfile _]. by split.
Qed.

Section Limits.

Variable max_variable_number : nat.

#[local] Abbreviation get_existing_keys := (get_existing_keys max_variable_number).
#[local] Abbreviation save_keys_to_db := (save_keys_to_db max_variable_number).

(** What a call that returns has done. *)
Lemma save_keys_to_db_returned f db keys db' count skipped :
  save_keys_to_db f db keys = (db', Returned (count, skipped)) →
  (2 * length keys ≤ max_variable_number)%nat ∧
  (keys ≠ [] → is_Some db') ∧
  skipped = Z.of_nat (length (filter (λ k, key_identity k ∈ identities db) keys)) ∧
  ∃ succeeded added,
    rows db' = rows db ++ added ∧
    count = Z.of_nat (length added) ∧
    sublist succeeded (filter (λ k, key_identity k ∉ identities db) keys) ∧
    row_values <$> added = values_of succeeded ∧
    ((∀ n, execute_fault f n = false) →
     ∀ d, d ∈ keys → key_identity d ∈ identities db').
Proof.
  intros Hsave. destruct (decide (keys = [])) as [->|Hne].
  { injection Hsave as <- <- <-. split_and!; [cbn; lia|done|done|].
    exists [], []. rewrite app_nil_r. split_and!; try done.
    intros _ d Hd. by apply elem_of_nil in Hd. }
  destruct (Db.get_existing_keys max_variable_number (setup_database db) keys)
    as [E|e] eqn:Hget.
  2:{ destruct keys as [|d keys]; [done|]. unfold Db.save_keys_to_db in Hsave.
      by rewrite Hget in Hsave. }
  pose proof (get_existing_keys_inv _ _ _ _ Hget) as [Hlen HE].
  destruct Hlen as [?|[Hlen _]]; [done|]. split; [done|].
  assert (HinE : ∀ k, k ∈ keys → key_identity k ∈ E ↔ key_identity k ∈ identities db).
  { intros k Hk. rewrite HE. unfold identities. rewrite setup_database_rows.
    cbn [rows]. split; [tauto|]. intros ?. split; [done|].
    apply list_elem_of_fmap. by exists k. }
  rewrite (save_keys_to_db_unfold _ _ _ _ E Hne Hget) in Hsave. cbn zeta in Hsave.
  rewrite (filter_agree (λ k, key_identity k ∉ E)
             (λ k, key_identity k ∉ identities db)) in Hsave
    by (intros k Hk; by rewrite HinE).
  rewrite (filter_agree (λ k, key_identity k ∈ E)
             (λ k, key_identity k ∈ identities db)) in Hsave by done.
  set (new_keys := filter (λ k, key_identity k ∉ identities db) keys) in *.
  rewrite setup_database_rows in Hsave.
  assert (Hcases : ∀ d, d ∈ keys →
            key_identity d ∈ identities db ∨ d ∈ new_keys).
  { intros d Hd. destruct (decide (key_identity d ∈ identities db)); [by left|].
    right. by apply list_elem_of_filter. }
  destruct (batch_insert _ _ _) as [c [count0|e]] eqn:Hbatch;
    apply batch_insert_inv in Hbatch.
  - destruct Hbatch as (-> & added & -> & _ & Hvals).
    injection Hsave as <- <- <-. cbn [file].
    split_and!; [by eexists|done|]. exists new_keys, added.
    split_and!; [done|by rewrite <-(length_fmap row_values), Hvals, length_values_of
                |done|done|].
    intros _ d Hd. unfold identities. cbn [rows]. rewrite fmap_app, elem_of_app.
    destruct (Hcases d Hd) as [?|Hnew]; [by left|right].
    rewrite (row_values_identities _ _ Hvals). apply list_elem_of_fmap. by exists d.
  - destruct Hbatch as [Hfile _].
    destruct (individual_inserts_inv new_keys f 0 (rollback c) (rows db) 0 Hfile)
      as (c' & succeeded & added & Hloop & _ & Hv' & _ & Hsub & Hvals & Hall).
    rewrite Hloop in Hsave. unfold commit in Hsave. rewrite Hv' in Hsave.
    cbn [file] in Hsave. injection Hsave as <- <- <-.
    split_and!; [by eexists|done|]. exists succeeded, added.
    split_and!; [done|lia|done|done|].
    intros Hnofault d Hd. unfold identities. cbn [rows].
    destruct (Hcases d Hd) as [?|Hnew].
    + rewrite fmap_app, elem_of_app. by left.
    + apply list_elem_of_lookup_1 in Hnew as [j Hj]. by apply (Hall j).
Qed.

Lemma save_keys_to_db_within_ceiling f db keys :
  (2 * length keys ≤ max_variable_number)%nat →
  is_returned (save_keys_to_db f db keys).2 = true.
Proof.
  intros Hlen. destruct (decide (keys = [])) as [->|Hne]; [done|].
  destruct (get_existing_keys_returns max_variable_number (rows db) keys Hlen)
    as (E & Hget & _).
  rewrite <-setup_database_rows in Hget.
  rewrite (save_keys_to_db_unfold _ _ _ _ E Hne Hget). cbn zeta.
  destruct (batch_insert _ _ _) as [c [count|e]]; [done|].
  by destruct (individual_inserts _ _ _ _ _).
Qed.

Lemma save_keys_to_db_over_ceiling f db keys :
  (max_variable_number < 2 * length keys)%nat →
  save_keys_to_db f db keys =
    (setup_database db, Raised (OperationalError "too many SQL variables")).
Proof.
  intros Hlen. destruct keys as [|d keys]; [cbn in Hlen; lia|].
  unfold Db.save_keys_to_db. by rewrite get_existing_keys_too_many.
Qed.

(** X1. [save_keys_to_db] returns exactly when its input has at most
    half the engine's maximum number of bound parameters; otherwise the
    error of the existence query reaches the caller, after the table was
    set up and with no row added. *)
Theorem save_keys_to_db_raises_iff f db keys :
  (is_returned (save_keys_to_db f db keys).2 = true ↔
   (2 * length keys ≤ max_variable_number)%nat) ∧
  (is_returned (save_keys_to_db f db keys).2 = false ↔
   save_keys_to_db f db keys =
     (setup_database db, Raised (OperationalError "too many SQL variables"))).
Proof.
  destruct (decide (2 * length keys ≤ max_variable_number)%nat) as [Hle|Hgt].
  - pose proof (save_keys_to_db_within_ceiling f db keys Hle) as Hret.
    split; [done|]. rewrite Hret. split; [done|]. intros Heq.
    by rewrite Heq in Hret.
  - rewrite save_keys_to_db_over_ceiling by lia. cbn. split; [|done].
    split; [done|lia].
Qed.

(** X2. The table exists after a call unless the store had none and the
    input was empty: an empty input returns before the schema is set
    up, any other input sets it up, also when the call raises. *)
Theorem save_keys_to_db_creates_table f db keys :
  (save_keys_to_db f db keys).1 = None ↔ db = None ∧ keys = [].
Proof.
  split; [|by intros [-> ->]].
  destruct (decide (keys = [])) as [->|Hne]; [done|]. intros Hnone.
  destruct (save_keys_to_db f db keys) as [db' [[count skipped]|e]] eqn:Hsave.
  - apply save_keys_to_db_returned in Hsave as (_ & Hsome & _).
    cbn in Hnone. subst db'. by destruct (Hsome Hne).
  - destruct (decide (2 * length keys ≤ max_variable_number)%nat) as [Hle|Hgt].
    { pose proof (save_keys_to_db_within_ceiling f db keys Hle) as Hret.
      by rewrite Hsave in Hret. }
    rewrite save_keys_to_db_over_ceiling in Hsave by lia.
    injection Hsave as <- _. cbn in Hnone.
    by rewrite setup_database_rows in Hnone.
Qed.

(** X3. Whenever [save_keys_to_db] returns, on the batch path or after
    the fallback, with or without duplicate identities in the input: the
    inserted count is the number of rows the file has gained, the skipped
    count is the number of input descriptors whose identity was stored
    before the call, and the two together never exceed the input. *)
Theorem save_keys_to_db_counts f db keys db' count skipped :
  save_keys_to_db f db keys = (db', Returned (count, skipped)) →
  count = Z.of_nat (length (rows db')) - Z.of_nat (length (rows db)) ∧
  skipped = Z.of_nat (length (filter (λ k, key_identity k ∈ identities db) keys)) ∧
  0 ≤ count ∧
  count + skipped ≤ Z.of_nat (length keys).
Proof.
  intros Hsave.
  apply save_keys_to_db_returned in Hsave
    as (_ & _ & -> & succeeded & added & -> & -> & Hsub & Hvals & _).
  rewrite length_app. split_and!; [lia|done|lia|].
  apply sublist_length in Hsub.
  apply (f_equal length) in Hvals. rewrite length_fmap, length_values_of in Hvals.
  pose proof (length_filter_complement (λ k, key_identity k ∈ identities db) keys).
  lia.
Qed.

(** X4. After a call that returns, every stored identity was stored
    before or is an identity of the input; and when the environment fails
    no single [INSERT], every identity of the input is stored, also when
    the input repeats identities and the batch insert was refused. *)
Theorem save_keys_to_db_identities f db keys db' count skipped :
  save_keys_to_db f db keys = (db', Returned (count, skipped)) →
  (∀ i, i ∈ identities db' → i ∈ identities db ∨ i ∈ (key_identity <$> keys)) ∧
  ((∀ n, execute_fault f n = false) →
   ∀ d, d ∈ keys → key_identity d ∈ identities db').
Proof.
  intros Hsave.
  apply save_keys_to_db_returned in Hsave
    as (_ & _ & _ & succeeded & added & Hrows & _ & Hsub & Hvals & Hall).
  split; [|done]. intros i. unfold identities at 1.
  rewrite Hrows, fmap_app, elem_of_app, (row_values_identities _ _ Hvals).
  intros [?|Hi]; [by left|right].
  apply list_elem_of_fmap in Hi as (k & -> & Hk).
  apply list_elem_of_fmap. exists k. split; [done|].
  eapply list_elem_of_filter, elem_of_sublist; done.
Qed.

(** X5. Saving and then checking: after a call that returns and in which
    no single [INSERT] was failed by the environment,
    [get_existing_keys] on the same descriptors answers with all of
    their identities. *)
Theorem save_then_get_existing_keys f db keys db' count skipped :
  save_keys_to_db f db keys = (db', Returned (count, skipped)) →
  (∀ n, execute_fault f n = false) →
  get_existing_keys db' keys = Returned (list_to_set (key_identity <$> keys)).
Proof.
  intros Hsave Hnofault.
  destruct (decide (keys = [])) as [->|Hne]; [done|].
  apply save_keys_to_db_returned in Hsave
    as (Hlen & Hsome & _ & succeeded & added & _ & _ & _ & _ & Hall).
  destruct (Hsome Hne) as [t' ->].
  destruct (get_existing_keys_returns max_variable_number t' keys Hlen)
    as (E & -> & HE).
  f_equal. apply set_eq. intros i. rewrite HE, elem_of_list_to_set.
  split; [tauto|]. intros Hi. split; [|done].
  apply list_elem_of_fmap in Hi as (k & -> & Hk). by apply (Hall Hnofault).
Qed.

(** X6. [setup_database] is idempotent and keeps the rows, and calling
    it before [save_keys_to_db] changes neither what the call returns
    nor the rows it leaves. *)
Theorem setup_database_transparent f db keys :
  setup_database (setup_database db) = setup_database db ∧
  rows (setup_database db) = rows db ∧
  (save_keys_to_db f (setup_database db) keys).2 = (save_keys_to_db f db keys).2 ∧
  rows (save_keys_to_db f (setup_database db) keys).1 =
    rows (save_keys_to_db f db keys).1.
Proof.
  split_and!; [apply setup_database_idempotent|by destruct db|..];
    (destruct keys as [|d keys]; [by destruct db|]);
    unfold Db.save_keys_to_db; by rewrite setup_database_idempotent.
Qed.

(** X7. The ids of the rows stay strictly increasing along the table,
    hence pairwise distinct, over any sequence of [save_keys_to_db]
    calls: a new row always gets an id above every id in the table. *)
Theorem saves_ids_increasing db calls :
  ids_increasing db →
  ids_increasing (saves max_variable_number db calls) ∧
  NoDup (col_id <$> rows (saves max_variable_number db calls)).
Proof.
  intros Hs.
  assert (Hs' : ids_increasing (saves max_variable_number db calls)).
  { unfold ids_increasing in *. eapply grows_ids_sorted; [apply saves_grows|done]. }
  split; [done|]. unfold ids_increasing in Hs'.
  induction Hs' as [|x l _ IH Hall]; constructor; [|done].
  intros Hx. apply (proj1 (Forall_forall _ _) Hall) in Hx. lia.
Qed.

(** X8. The table is append-only: after any sequence of
    [save_keys_to_db] calls the table as it was is a prefix of the table
    as it is: no row was deleted, changed or moved. *)
Theorem saves_append_only db calls :
  ∃ added, rows (saves max_variable_number db calls) = rows db ++ added.
Proof. apply grows_prefix, saves_grows. Qed.

(** X9. [get_existing_keys] returns exactly when the candidate list is
    empty, or is within the parameter ceiling and the table exists; and
    what it returns are the candidate identities that are stored. *)
Theorem get_existing_keys_returns_iff db keys :
  (is_returned (get_existing_keys db keys) = true ↔
   keys = [] ∨ (2 * length keys ≤ max_variable_number)%nat ∧ is_Some db) ∧
  ∀ existing_keys, get_existing_keys db keys = Returned existing_keys →
    ∀ i, i ∈ existing_keys ↔ i ∈ identities db ∧ i ∈ (key_identity <$> keys).
Proof.
  split; [|intros E HE; by apply (get_existing_keys_inv _ _ _ _ HE)].
  split.
  - destruct (get_existing_keys db keys) as [E|e] eqn:Hget; [|done].
    intros _. by apply (get_existing_keys_inv _ _ _ _ Hget).
  - intros [->|[Hlen [t ->]]]; [done|].
    by destruct (get_existing_keys_returns max_variable_number t keys Hlen)
      as (E & -> & _).
Qed.

End Limits.

Import Examples.

(** A call that goes through the fallback: [C] twice in the input. *)
Lemma save_keys_to_db_counts_witness :
  save_keys_to_db 999 no_faults store_AB [key_A; key_C; key_C_again; key_D] =
    (Some [row_A; row_B; Row 3 "b" "C" "t1"; Row 4 "b" "D" "t1"], Returned (2, 1)) ∧
  2 = Z.of_nat (length [row_A; row_B; Row 3 "b" "C" "t1"; Row 4 "b" "D" "t1"])
      - Z.of_nat (length (rows store_AB)) ∧
  1 = Z.of_nat (length (filter (λ k, key_identity k ∈ identities store_AB)
                          [key_A; key_C; key_C_again; key_D])) ∧
  0 ≤ 2 ∧
  2 + 1 ≤ Z.of_nat (length [key_A; key_C; key_C_again; key_D]).
Proof.
  assert (Hsave : save_keys_to_db 999 no_faults store_AB
                    [key_A; key_C; key_C_again; key_D] =
                  (Some [row_A; row_B; Row 3 "b" "C" "t1"; Row 4 "b" "D" "t1"],
                   Returned (2, 1))) by (vm_compute; reflexivity).
  split; [exact Hsave|].
  exact (save_keys_to_db_counts 999 no_faults store_AB
           [key_A; key_C; key_C_again; key_D] _ 2 1 Hsave).
Defined.

Lemma save_keys_to_db_identities_witness :
  save_keys_to_db 999 no_faults store_AB [key_A; key_C; key_C_again; key_D] =
    (Some [row_A; row_B; Row 3 "b" "C" "t1"; Row 4 "b" "D" "t1"], Returned (2, 1)) ∧
  (∀ i, i ∈ identities (Some [row_A; row_B; Row 3 "b" "C" "t1"; Row 4 "b" "D" "t1"]) →
        i ∈ identities store_AB ∨
        i ∈ (key_identity <$> [key_A; key_C; key_C_again; key_D])) ∧
  ((∀ n, execute_fault no_faults n = false) →
   ∀ d, d ∈ [key_A; key_C; key_C_again; key_D] →
        key_identity d ∈
          identities (Some [row_A; row_B; Row 3 "b" "C" "t1"; Row 4 "b" "D" "t1"])).
Proof.
  assert (Hsave : save_keys_to_db 999 no_faults store_AB
                    [key_A; key_C; key_C_again; key_D] =
                  (Some [row_A; row_B; Row 3 "b" "C" "t1"; Row 4 "b" "D" "t1"],
                   Returned (2, 1))) by (vm_compute; reflexivity).
  split; [exact Hsave|].
  exact (save_keys_to_db_identities 999 no_faults store_AB
           [key_A; key_C; key_C_again; key_D] _ 2 1 Hsave).
Defined.

Lemma save_then_get_existing_keys_witness :
  save_keys_to_db 999 no_faults store_AB [key_A; key_C; key_C_again; key_D] =
    (Some [row_A; row_B; Row 3 "b" "C" "t1"; Row 4 "b" "D" "t1"], Returned (2, 1)) ∧
  (∀ n, execute_fault no_faults n = false) ∧
  get_existing_keys 999 (Some [row_A; row_B; Row 3 "b" "C" "t1"; Row 4 "b" "D" "t1"])
    [key_A; key_C; key_C_again; key_D] =
    Returned (list_to_set (key_identity <$> [key_A; key_C; key_C_again; key_D])).
Proof.
  assert (Hsave : save_keys_to_db 999 no_faults store_AB
                    [key_A; key_C; key_C_again; key_D] =
                  (Some [row_A; row_B; Row 3 "b" "C" "t1"; Row 4 "b" "D" "t1"],
                   Returned (2, 1))) by (vm_compute; reflexivity).
  assert (Hnofault : ∀ n, execute_fault no_faults n = false) by reflexivity.
  split_and!; [exact Hsave|exact Hnofault|].
  exact (save_then_get_existing_keys 999 no_faults store_AB
           [key_A; key_C; key_C_again; key_D] _ 2 1 Hsave Hnofault).
Defined.

Lemma saves_ids_increasing_witness :
  ids_increasing store_AB ∧
  ids_increasing (saves 999 store_AB
                    [(patched, [key_A; key_C; key_D; key_E]);
                     (no_faults, [key_D; key_D])]) ∧
  NoDup (col_id <$> rows (saves 999 store_AB
                            [(patched, [key_A; key_C; key_D; key_E]);
                             (no_faults, [key_D; key_D])])).
Proof.
  assert (Hs : ids_increasing store_AB).
  { unfold ids_increasing. cbn. repeat constructor. }
  split; [exact Hs|].
  exact (saves_ids_increasing 999 store_AB _ Hs).
Defined.

End DbMore.

(** * Further properties of the search *)

Module SearchMore.
Import Like Engine Db ListFacts DbFacts SearchFacts.

Lemma like_percent_intro pattern s :
  like pattern s = true → like (String percent pattern) s = true.
Proof. intros H. by rewrite like_percent, H. Qed.

Lemma like_percent_skip pattern pre s :
  like (String percent pattern) s = true →
  like (String percent pattern) (pre +:+ s) = true.
Proof.
  intros H. induction pre as [|c pre IH]; [done|].
  rewrite append_cons, like_percent, IH. apply orb_true_r.
Qed.

Lemma eq_nocase_refl a : eq_nocase a a = true.
Proof. unfold eq_nocase. by apply bool_decide_eq_true. Qed.

(** A string matches itself as a pattern, wildcards included, followed
    by anything. *)
Lemma like_literal q post :
  like (q +:+ String percent EmptyString) (q +:+ post) = true.
Proof.
  induction q as [|a q IH]; [apply like_only_percent|].
  rewrite !append_cons. destruct (decide (a = percent)) as [->|Hp].
  - rewrite like_percent. apply orb_true_iff. right. by apply like_percent_intro.
  - cbn [like]. rewrite (bool_decide_eq_false_2 _ Hp), eq_nocase_refl, IH.
    by rewrite orb_true_r.
Qed.

(** Whatever the query holds, a key that contains it matches. *)
Lemma like_contains_any q s :
  contains q s = true →
  like (String percent (q +:+ String percent EmptyString)) s = true.
Proof.
  intros (pre & post & ->)%contains_spec.
  apply like_percent_skip, like_percent_intro, like_literal.
Qed.

Lemma starts_with_refl s post : starts_with s (s +:+ post) = true.
Proof. apply starts_with_spec. by exists post. Qed.

Lemma contains_refl s : contains s s = true.
Proof.
  apply contains_spec. exists EmptyString, EmptyString.
  induction s as [|c s IH]; [done|]. rewrite append_empty in *.
  rewrite append_cons. by f_equal.
Qed.

Lemma search_keys_result db q :
  search_keys db q =
    (setup_database db,
     Returned (row_values <$>
               filter (λ r, like (String percent (q +:+ String percent EmptyString))
                              (col_key r) = true) (rows db))).
Proof.
  unfold search_keys, select_where_key_like. by rewrite setup_database_rows.
Qed.



(** X12. The empty query returns every stored row, and so does the
    query [%]. *)
Theorem search_keys_everything db :
  search_keys db "" = (setup_database db, Returned (row_values <$> rows db)) ∧
  search_keys db "%" = (setup_database db, Returned (row_values <$> rows db)).
Proof.
  split; rewrite search_keys_result; do 3 f_equal; apply filter_all; intros r _.
  - apply (like_contains_any ""). by destruct (col_key r).
  - change ("%" +:+ String percent "") with (String percent (String percent "")).
    apply like_percent_intro, like_percent_intro, like_only_percent.
Qed.

Lemma tolower_percent x : tolower x = percent → x = percent.
Proof.
  destruct x as [[] [] [] [] [] [] [] []]; intros H; vm_compute in H;
    first [reflexivity|discriminate H].
Qed.

Lemma tolower_underscore x : tolower x = underscore → x = underscore.
Proof.
  destruct x as [[] [] [] [] [] [] [] []]; intros H; vm_compute in H;
    first [reflexivity|discriminate H].
Qed.

Lemma tolower_wildcards a b :
  tolower a = tolower b →
  bool_decide (a = percent) = bool_decide (b = percent) ∧
  bool_decide (a = underscore) = bool_decide (b = underscore).
Proof.
  intros Hab. split; apply bool_decide_ext; split; intros ->.
  - symmetry in Hab. by apply tolower_percent in Hab.
  - by apply tolower_percent in Hab.
  - symmetry in Hab. by apply tolower_underscore in Hab.
  - by apply tolower_underscore in Hab.
Qed.

(** Patterns that differ in the case of ASCII letters match the same
    strings. *)
Lemma like_pattern_nocase p p' s : lower p = lower p' → like p s = like p' s.
Proof.
  revert p' s. induction p as [|a p IH]; intros [|b p'] s Hl; try done.
  cbn [lower] in Hl. injection Hl as Hab Hl.
  destruct (tolower_wildcards a b Hab) as [Hp Hu].
  destruct (decide (a = percent)) as [->|Ha].
  - rewrite bool_decide_eq_true_2 in Hp by done. symmetry in Hp.
    apply bool_decide_eq_true in Hp as ->.
    induction s as [|c s IHs]; rewrite (like_percent p), (like_percent p').
    + by rewrite (IH p').
    + by rewrite (IH p'), IHs.
  - cbn [like]. rewrite <-Hp, <-Hu. rewrite (bool_decide_eq_false_2 _ Ha).
    destruct s as [|c s]; [done|]. unfold eq_nocase. rewrite Hab.
    by rewrite (IH p').
Qed.

Lemma lower_append s1 s2 : lower (s1 +:+ s2) = lower s1 +:+ lower s2.
Proof.
  induction s1 as [|c s1 IH]; [done|]. rewrite append_cons. cbn [lower].
  by rewrite append_cons, IH.
Qed.

(** X24. The search does not see the case of ASCII letters in the
    query: two queries that differ only in it return the same rows. *)
Theorem search_keys_query_nocase db q q' :
  lower q = lower q' →
  search_keys db q = search_keys db q'.
Proof.
  intros Hl. rewrite !search_keys_result. do 3 f_equal.
  apply filter_agree. intros r _.
  rewrite (like_pattern_nocase _ (String percent (q' +:+ String percent ""))); [done|].
  cbn [lower]. by rewrite !lower_append, Hl.
Qed.

Section Limits.

Variable max_variable_number : nat.


End Limits.

Import Examples.



Lemma search_keys_query_nocase_witness :
  lower "Folder/A" = lower "fOLDER/a" ∧
  search_keys (Some [Row 1 "b" "folder/a.txt" "t0"; row_B]) "Folder/A" =
  search_keys (Some [Row 1 "b" "folder/a.txt" "t0"; row_B]) "fOLDER/a".
Proof.
  split; [reflexivity|].
  exact (search_keys_query_nocase _ "Folder/A" "fOLDER/a" eq_refl).
Defined.

End SearchMore.

(** * Further properties of the listing source *)

Module S3More.
Import S3 S3Facts.

(** ** No empty batch *)

Lemma contents_loop_nonempty bucket_name batch_size contents batch :
  Forall (λ b, b ≠ []) (contents_loop bucket_name batch_size contents batch).1.
Proof.
  revert batch. induction contents as [|obj contents IH]; intros batch.
  { constructor. }
  cbn [contents_loop]. case_match; [|apply IH].
  specialize (IH []). destruct (contents_loop _ _ contents []) as [ys b'].
  cbn [fst] in *. constructor; [|done]. by destruct batch.
Qed.

Lemma pages_loop_nonempty bucket_name batch_size pages batch :
  Forall (λ b, b ≠ []) (pages_loop bucket_name batch_size pages batch).
Proof.
  revert batch.
  induction pages as [|[contents|] pages IH|e]; intros batch; cbn [pages_loop].
  - destruct batch; repeat constructor; done.
  - pose proof (contents_loop_nonempty bucket_name batch_size contents batch) as Hc.
    destruct (contents_loop _ _ contents batch) as [ys b']. cbn [fst] in Hc.
    apply Forall_app. split; [done|apply IH].
  - apply IH.
  - destruct batch; repeat constructor; done.
Qed.

(** ** A batch size of zero or less *)

Lemma contents_loop_nonpositive bucket_name batch_size contents :
  batch_size ≤ 0 →
  contents_loop bucket_name batch_size contents [] =
    ((λ obj, [descriptor bucket_name obj]) <$> contents, []).
Proof.
  intros Hle. induction contents as [|obj contents IH]; [done|].
  cbn [contents_loop app]. rewrite IH.
  destruct (Z.leb_spec batch_size (Z.of_nat (length [KeyInfo bucket_name (Key obj)
                                                        (LastModified obj)])));
    [done|cbn in *; lia].
Qed.

Lemma pages_loop_nonpositive bucket_name batch_size pages :
  batch_size ≤ 0 →
  pages_loop bucket_name batch_size pages [] =
    (λ obj, [descriptor bucket_name obj]) <$> received pages.
Proof.
  intros Hle. induction pages as [|[contents|] pages IH|e];
    cbn [pages_loop received]; [done| |done|done].
  by rewrite contents_loop_nonpositive, IH, fmap_app.
Qed.

Lemma list_bucket_bounds client batch_size bucket_name batch :
  batch ∈ list_bucket client batch_size bucket_name →
  batch ≠ [] ∧ Z.of_nat (length batch) ≤ Z.max batch_size 1.
Proof.
  intros Hb. split.
  { by apply (proj1 (Forall_forall _ _)
                (pages_loop_nonempty bucket_name batch_size
                   (paginate client bucket_name) [])). }
  unfold list_bucket in Hb.
  destruct (Z.le_gt_cases batch_size 0) as [Hle|Hpos].
  - rewrite pages_loop_nonpositive in Hb by done.
    apply list_elem_of_fmap in Hb as (obj & -> & _). cbn. lia.
  - destruct (pages_loop_shape bucket_name batch_size ltac:(lia)
                (paginate client bucket_name) [])
      as (fulls & rest & Hshape & Hfulls & Hrest); [cbn; lia|].
    rewrite Hshape in Hb. apply elem_of_app in Hb as [Hb|Hb].
    + apply (proj1 (Forall_forall _ _) Hfulls) in Hb. unfold full in Hb. lia.
    + destruct rest as [|d rest]; [by apply elem_of_nil in Hb|].
      apply list_elem_of_singleton in Hb as ->. lia.
Qed.

Lemma list_s3_keys_batches_of client bucket_name batch_size names :
  buckets_of client bucket_name = Returned names →
  list_s3_keys client bucket_name batch_size =
    (names ≫= list_bucket client batch_size, Returned tt).
Proof. intros H. unfold list_s3_keys. by rewrite H. Qed.

Lemma list_s3_keys_bounds client bucket_name batch_size batch :
  batch ∈ (list_s3_keys client bucket_name batch_size).1 →
  batch ≠ [] ∧ Z.of_nat (length batch) ≤ Z.max batch_size 1.
Proof.
  unfold list_s3_keys. destruct (buckets_of client bucket_name) as [names|e].
  - cbn [fst]. intros (name & Hb & _)%list_elem_of_bind.
    by eapply list_bucket_bounds.
  - cbn. by intros ?%elem_of_nil.
Qed.


(** X14. No batch that [list_s3_keys] yields is empty, and for a positive
    batch size none is larger than the batch size, whichever containers
    are listed and whether or not listings fail. *)
Theorem list_s3_keys_batch_bounds client bucket_name batch_size batch :
  batch ∈ (list_s3_keys client bucket_name batch_size).1 →
  batch ≠ [] ∧ (0 < batch_size → Z.of_nat (length batch) ≤ batch_size).
Proof.
  intros Hb. apply list_s3_keys_bounds in Hb as [Hne Hle].
  split; [done|]. lia.
Qed.

(** X15. With a batch size of zero or less the buffer is yielded after
    every descriptor: the batches are the descriptors received, one per
    batch, in order. *)
Theorem list_s3_keys_nonpositive_batch_size client bucket_name batch_size names :
  batch_size ≤ 0 →
  buckets_of client bucket_name = Returned names →
  list_s3_keys client bucket_name batch_size =
    (names ≫= (λ name, (λ obj, [descriptor name obj]) <$>
                         received (paginate client name)),
     Returned tt).
Proof.
  intros Hle Hnames. rewrite (list_s3_keys_batches_of _ _ _ _ Hnames).
  f_equal. clear Hnames. induction names as [|name names IH]; [done|].
  rewrite !bind_cons. f_equal; [|done].
  by apply pages_loop_nonpositive.
Qed.



Import Examples.

Lemma list_s3_keys_batch_bounds_witness :
  [KeyInfo "logs" "l3" "t3"] ∈ (list_s3_keys client None 2).1 ∧
  [KeyInfo "logs" "l3" "t3"] ≠ [] ∧
  (0 < 2 → Z.of_nat (length [KeyInfo "logs" "l3" "t3"]) ≤ 2).
Proof.
  assert (Hb : [KeyInfo "logs" "l3" "t3"] ∈ (list_s3_keys client None 2).1).
  { decide_by_evaluation. }
  split; [exact Hb|].
  exact (list_s3_keys_batch_bounds client None 2 _ Hb).
Defined.

Lemma list_s3_keys_nonpositive_batch_size_witness :
  -1 ≤ 0 ∧
  buckets_of client (Some "photos") = Returned ["photos"] ∧
  list_s3_keys client (Some "photos") (-1) =
    (["photos"] ≫= (λ name, (λ obj, [descriptor name obj]) <$>
                              received (paginate client name)),
     Returned tt).
Proof.
  assert (Hle : -1 ≤ 0) by lia.
  split_and!; [exact Hle|reflexivity|].
  exact (list_s3_keys_nonpositive_batch_size client (Some "photos") (-1) _
           Hle eq_refl).
Defined.


End S3More.

(** * Properties of the commands *)

Module CliFacts.
Import Engine EngineFacts Db S3 ListFacts DbFacts Cli.

Section Limits.

Variable max_variable_number : nat.

#[local] Abbreviation save_keys_to_db := (save_keys_to_db max_variable_number).
#[local] Abbreviation save_loop := (save_loop max_variable_number).
#[local] Abbreviation save := (save max_variable_number).

#[local] Abbreviation within_ceiling := (within_ceiling max_variable_number).

Lemma save_keys_to_db_keeps_table f db keys :
  is_Some db → is_Some (save_keys_to_db f db keys).1.
Proof.
  intros [t ->]. destruct (decide (keys = [])) as [->|Hne]; [by eexists|].
  destruct (save_keys_to_db f (Some t) keys) as [db' [[count skipped]|e]] eqn:Hsave.
  - apply DbMore.save_keys_to_db_returned in Hsave as (_ & Hsome & _). by apply Hsome.
  - destruct (decide (2 * length keys ≤ max_variable_number)%nat) as [Hle|Hgt].
    { pose proof (DbMore.save_keys_to_db_within_ceiling _ f (Some t) keys Hle) as Hret.
      by rewrite Hsave in Hret. }
    rewrite DbMore.save_keys_to_db_over_ceiling in Hsave by lia.
    injection Hsave as <- _. by eexists.
Qed.

Lemma save_loop_grows faults_of db batches total_count batch_count :
  grows (rows db) (rows (save_loop faults_of db batches total_count batch_count).1).
Proof.
  revert db total_count batch_count.
  induction batches as [|batch batches IH]; intros db total_count batch_count;
    [constructor|].
  cbn [Cli.save_loop].
  pose proof (save_keys_to_db_grows max_variable_number
                (faults_of (batch_count + 1)) db batch) as Hg.
  destruct (save_keys_to_db _ db batch) as [db1 [[saved skipped]|e]];
    cbn [fst] in *; [|done].
  eapply grows_trans; [done|apply IH].
Qed.

(** What a loop that ran to its end has done. *)
Lemma save_loop_returned faults_of db batches total_count batch_count
    db' total_count' batch_count' :
  save_loop faults_of db batches total_count batch_count =
    (db', Returned (total_count', batch_count')) →
  total_count' =
    total_count + (Z.of_nat (length (rows db')) - Z.of_nat (length (rows db))) ∧
  batch_count' = batch_count + Z.of_nat (length batches) ∧
  Forall within_ceiling batches ∧
  (is_Some db → is_Some db') ∧
  ((∀ n i, execute_fault (faults_of n) i = false) →
   ∀ batch d, batch ∈ batches → d ∈ batch → key_identity d ∈ identities db').
Proof.
  revert db total_count batch_count.
  induction batches as [|batch batches IH]; intros db total_count batch_count.
  { intros [= <- <- <-]. split_and!; [lia|cbn; lia|constructor|done|].
    intros _ batch d Hb. by apply elem_of_nil in Hb. }
  cbn [Cli.save_loop].
  destruct (save_keys_to_db _ db batch) as [db1 [[saved skipped]|e]] eqn:Hsave;
    [|done].
  intros Hloop. pose proof (save_loop_grows faults_of db1 batches
                              (total_count + saved) (batch_count + 1)) as Hg.
  rewrite Hloop in Hg. cbn [fst] in Hg.
  pose proof (save_keys_to_db_keeps_table (faults_of (batch_count + 1)) db batch)
    as Hkeeps. rewrite Hsave in Hkeeps. cbn [fst] in Hkeeps.
  apply IH in Hloop as (-> & -> & Hceil & Hsome & Hstored).
  apply DbMore.save_keys_to_db_returned in Hsave
    as (Hlen & _ & _ & succeeded & added & Hrows & -> & _ & _ & Hall).
  split_and!.
  - rewrite Hrows, length_app. lia.
  - cbn [length]. lia.
  - by constructor.
  - intros Hdb. by apply Hsome, Hkeeps.
  - intros Hnofault b d Hb Hd. apply elem_of_cons in Hb as [->|Hb].
    + unfold identities. by eapply grows_identities_mono; [|apply Hall].
    + by eapply Hstored.
Qed.


(** When everything listed is stored already, the loop inserts nothing. *)
Lemma save_loop_all_stored faults_of t batches total_count batch_count :
  Forall within_ceiling batches →
  (∀ batch d, batch ∈ batches → d ∈ batch →
              key_identity d ∈ (row_identity <$> t)) →
  save_loop faults_of (Some t) batches total_count batch_count =
    (Some t, Returned (total_count, batch_count + Z.of_nat (length batches))).
Proof.
  intros Hceil. revert total_count batch_count.
  induction Hceil as [|batch batches Hb _ IH]; intros total_count batch_count Hall.
  { cbn. do 3 f_equal. lia. }
  cbn [Cli.save_loop].
  rewrite save_keys_to_db_all_stored;
    [|done|intros d Hd; apply (Hall batch); [by left|done]].
  rewrite Z.add_0_r, IH.
  - do 3 f_equal. cbn [length]. lia.
  - intros b d Hb' Hd. apply (Hall b); [by right|done].
Qed.

Lemma save_unfold client faults_of db bucket batch_size :
  save client faults_of db bucket batch_size =
    match save_loop faults_of (setup_database db)
            (list_s3_keys client bucket batch_size).1 0 0 with
    | (db', Raised e) => (db', Raised e)
    | (db', Returned counts) =>
        match (list_s3_keys client bucket batch_size).2 with
        | Returned _ => (db', Returned counts)
        | Raised e => (db', Raised e)
        end
    end.
Proof. unfold Cli.save. by destruct (list_s3_keys client bucket batch_size). Qed.

Lemma save_returned client faults_of db bucket batch_size db' counts :
  save client faults_of db bucket batch_size = (db', Returned counts) →
  save_loop faults_of (setup_database db)
    (list_s3_keys client bucket batch_size).1 0 0 = (db', Returned counts).
Proof.
  rewrite save_unfold.
  destruct (save_loop _ _ _ _ _) as [db1 [c|e]]; [|done].
  by destruct (list_s3_keys client bucket batch_size).2; intros [= <- <-].
Qed.

Lemma save_listing_returned client faults_of db bucket batch_size db' counts :
  save client faults_of db bucket batch_size = (db', Returned counts) →
  (list_s3_keys client bucket batch_size).2 = Returned tt.
Proof.
  rewrite save_unfold.
  destruct (save_loop _ _ _ _ _) as [db1 [c|e]]; [|done].
  by destruct (list_s3_keys client bucket batch_size).2 as [[]|e].
Qed.

Lemma save_grows client faults_of db bucket batch_size :
  grows (rows db) (rows (save client faults_of db bucket batch_size).1).
Proof.
  rewrite save_unfold.
  pose proof (save_loop_grows faults_of (setup_database db)
                (list_s3_keys client bucket batch_size).1 0 0) as Hg.
  assert (Hrows : rows (setup_database db) = rows db) by (by destruct db).
  rewrite Hrows in Hg.
  destruct (save_loop _ _ _ _ _) as [db1 [c|e]]; [|done].
  by destruct (list_s3_keys client bucket batch_size).2.
Qed.

(** X18. When the command [save] runs to its end, the total it reports
    is the number of rows the table has gained during the run, and the
    number of batches it reports is the number of batches listed. *)
Theorem save_totals client faults_of db bucket batch_size db' total_count batch_count :
  save client faults_of db bucket batch_size =
    (db', Returned (total_count, batch_count)) →
  total_count = Z.of_nat (length (rows db')) - Z.of_nat (length (rows db)) ∧
  0 ≤ total_count ∧
  batch_count = Z.of_nat (length (list_s3_keys client bucket batch_size).1).
Proof.
  intros Hsave. pose proof (save_grows client faults_of db bucket batch_size) as Hg.
  rewrite Hsave in Hg. cbn [fst] in Hg. apply grows_length in Hg.
  apply save_returned, save_loop_returned in Hsave as (-> & -> & _).
  rewrite setup_database_rows. cbn [rows]. lia.
Qed.


(** X20. Running [save] again over the same listing, after a run that
    went to its end with no single [INSERT] failed by the environment,
    inserts nothing: it reports a total of zero over the same number of
    batches and leaves the store as it is. *)
Theorem save_twice client faults_of faults_of' db bucket batch_size
    db1 total_count batch_count :
  save client faults_of db bucket batch_size =
    (db1, Returned (total_count, batch_count)) →
  (∀ n i, execute_fault (faults_of n) i = false) →
  save client faults_of' db1 bucket batch_size = (db1, Returned (0, batch_count)).
Proof.
  intros Hsave Hnofault.
  pose proof (save_listing_returned _ _ _ _ _ _ _ Hsave) as Hlisting.
  apply save_returned, save_loop_returned in Hsave
    as (_ & -> & Hceil & Hsome & Hstored).
  destruct Hsome as [t ->]; [rewrite setup_database_rows; by eexists|].
  rewrite save_unfold, Hlisting. cbn [setup_database create_table_if_not_exists].
  rewrite save_loop_all_stored; [done|done|].
  intros batch d Hb Hd. by apply (Hstored Hnofault batch).
Qed.


(** X22. Whatever happens during the command [save], also when it ends
    with an exception, the table it leaves has the table it found as a
    prefix and has unique identities when that had. *)
Theorem save_keeps_rows client faults_of db bucket batch_size :
  unique_rows db →
  unique_rows (save client faults_of db bucket batch_size).1 ∧
  ∃ added, rows (save client faults_of db bucket batch_size).1 = rows db ++ added.
Proof.
  intros Hu. pose proof (save_grows client faults_of db bucket batch_size) as Hg.
  split; [|by apply grows_prefix].
  unfold unique_rows, identities in *. by eapply grows_NoDup.
Qed.

End Limits.

Import Examples.

(** A first run over both buckets into a store that was never created. *)
Lemma save_totals_witness :
  save 999 client (λ _, no_faults) None None 2 =
    ((save 999 client (λ _, no_faults) None None 2).1, Returned (8, 5)) ∧
  8 = Z.of_nat (length (rows (save 999 client (λ _, no_faults) None None 2).1))
      - Z.of_nat (length (rows None)) ∧
  0 ≤ 8 ∧
  5 = Z.of_nat (length (list_s3_keys client None 2).1).
Proof.
  assert (Hsave : save 999 client (λ _, no_faults) None None 2 =
                  ((save 999 client (λ _, no_faults) None None 2).1, Returned (8, 5)))
    by (vm_compute; reflexivity).
  split; [exact Hsave|].
  exact (save_totals 999 client (λ _, no_faults) None None 2 _ 8 5 Hsave).
Defined.


Lemma save_twice_witness :
  save 999 client (λ _, no_faults) None None 2 =
    ((save 999 client (λ _, no_faults) None None 2).1, Returned (8, 5)) ∧
  (∀ n i, execute_fault ((λ _ : Z, no_faults) n) i = false) ∧
  save 999 client (λ _, patched)
    (save 999 client (λ _, no_faults) None None 2).1 None 2 =
    ((save 999 client (λ _, no_faults) None None 2).1, Returned (0, 5)).
Proof.
  assert (Hsave : save 999 client (λ _, no_faults) None None 2 =
                  ((save 999 client (λ _, no_faults) None None 2).1, Returned (8, 5)))
    by (vm_compute; reflexivity).
  assert (Hnofault : ∀ n i, execute_fault ((λ _ : Z, no_faults) n) i = false)
    by reflexivity.
  split_and!; [exact Hsave|exact Hnofault|].
  exact (save_twice 999 client (λ _, no_faults) (λ _, patched) None None 2 _ 8 5
           Hsave Hnofault).
Defined.


(** A run that an oversized batch ends with an exception. *)
Lemma save_keeps_rows_witness :
  unique_rows store_AB ∧
  unique_rows (save 5 client (λ _, no_faults) store_AB None 3).1 ∧
  ∃ added, rows (save 5 client (λ _, no_faults) store_AB None 3).1 =
           rows store_AB ++ added.
Proof.
  assert (Hu : unique_rows store_AB).
  { decide_by_evaluation. }
  split; [exact Hu|].
  exact (save_keeps_rows 5 client (λ _, no_faults) store_AB None 3 Hu).
Defined.

End CliFacts.
